(** * Relaxation technique (sequential reference): model and properties

    A shallow embedding of [relaxation_technique_sequential.c].

    Conventions of the embedding.
    - [int] values are integers of [Z]; the arithmetic of the program is
      read in the range where no signed overflow occurs.  [/] and [%] on
      [int] are C's truncating [Z.quot] and [Z.rem].
    - [double] values are the binary64 numbers of [PrimFloat], with the
      IEEE operations the C expressions denote (round to nearest even,
      no contraction, no extended precision).
    - A [double*] obtained from [malloc] is the list of its cells.  The
      cells hold what the allocator left there: [malloc] takes that
      leftover content as an argument, and is taken to succeed.  An
      access outside the allocated cells is undefined behaviour in C and
      is a [Fault] here, and so is the use of an entry of the [blocks]
      array that was never assigned.
    - Globals that a function reads become its arguments; globals that it
      writes are returned. *)

From Stdlib Require Import ZArith Floats.
From Stdlib Require Uint63.
From stdpp Require Import base tactics option list relations.

Local Open Scope Z_scope.

(** ** Faults and the result monad *)

Inductive fault : Set :=
| OutOfBounds          (* an array access outside the allocated cells *)
| DivisionByZero       (* [%] or [/] on int with a zero divisor *)
| InvalidConversion    (* double to int conversion of a non-finite value *)
| UninitialisedBlock.  (* use of a BLOCK entry that was never assigned *)

Inductive result (A : Type) : Type :=
| Ok (a : A)
| Fault (f : fault).

Arguments Ok {A} a.
Arguments Fault {A} f.

#[global] Instance result_ret : MRet result := fun _ a => Ok a.
#[global] Instance result_bind : MBind result := fun _ _ k r =>
  match r with
  | Ok a => k a
  | Fault f => Fault f
  end.

(** ** Memory cells *)

(** [malloc(n * sizeof(double))]: [n] cells holding the leftover content
    [junk]; a negative [n] yields no usable cell. *)
Definition malloc (junk : nat -> float) (n : Z) : list float :=
  junk <$> seq 0 (Z.to_nat n).

(** [a[i]] as an rvalue. *)
Definition load {A} (a : list A) (i : Z) : result A :=
  if bool_decide (0 <= i) then
    match a !! Z.to_nat i with
    | Some v => Ok v
    | None => Fault OutOfBounds
    end
  else Fault OutOfBounds.

(** [a[i] = v]. *)
Definition store {A} (a : list A) (i : Z) (v : A) : result (list A) :=
  if bool_decide (0 <= i < Z.of_nat (length a))
  then Ok (<[Z.to_nat i := v]> a)
  else Fault OutOfBounds.

(** [a % b] on int. *)
Definition c_rem (a b : Z) : result Z :=
  if bool_decide (b = 0) then Fault DivisionByZero else Ok (Z.rem a b).

(** [a / b] on int. *)
Definition c_quot (a b : Z) : result Z :=
  if bool_decide (b = 0) then Fault DivisionByZero else Ok (Z.quot a b).

(** ** Loops *)

(** [for (i = lo; n iterations; i++) body], threading the state [s]. *)
Fixpoint for_loop {St : Type} (n : nat) (i : Z)
    (body : Z -> St -> result St) (s : St) : result St :=
  match n with
  | O => Ok s
  | S n' => s' ← body i s; for_loop n' (i + 1) body s'
  end.

(** [for (i = lo; i < hi; i++) body]. *)
Definition for_range {St : Type} (lo hi : Z)
    (body : Z -> St -> result St) (s : St) : result St :=
  for_loop (Z.to_nat (hi - lo)) lo body s.

(** ** [makeMatrix] *)

Definition matrix_t := list float.

Definition makeMatrix (junk : nat -> float) (matrix_size : Z) : result matrix_t :=
  let matrix := malloc junk (matrix_size * matrix_size) in
  for_range 0 matrix_size (fun i matrix =>
    for_range 0 matrix_size (fun j matrix =>
      if bool_decide (i = 0) || bool_decide (j = 0)
      then store matrix (i * matrix_size + j) 1%float
      else store matrix (i * matrix_size + j) 0%float) matrix) matrix.

(** ** Blocks *)

Record BLOCK : Type := mkBLOCK {
  start_index : Z;
  end_index : Z;
  new_values : list float
}.

(** The [blocks] array: [thread_count] entries, each either assigned
    ([Some]) or left as [malloc] returned it ([None]). *)
Definition blocks_t := list (option BLOCK).

(** [ceil((double)a / (double)b)] converted to int, for [b <> 0].  On the
    int range the quotient of the two doubles is within half a unit in the
    last place of the rational [a/b], which no integer other than [a/b]
    itself can reach, so the ceiling is the one of the rational. *)
Definition ceil_div (a b : Z) : Z := - ((- a) `div` b).

(** [makeBlocks]; [junk i] is the leftover content of the memory handed
    out for the scratch buffer written to [blocks[i]]. *)
Definition makeBlocks (junk : Z -> nat -> float)
    (matrix_size thread_count : Z) : result blocks_t :=
  let blocks : blocks_t := replicate (Z.to_nat thread_count) None in
  let mutatable_indexes_count := matrix_size * matrix_size - matrix_size * 2 in
  equal_block_size ←
    (if bool_decide (thread_count = 0) then Fault InvalidConversion
     else Ok (ceil_div mutatable_indexes_count thread_count));
  last_block_size ← c_rem mutatable_indexes_count equal_block_size;
  equal_block_count ←
    c_quot (mutatable_indexes_count - last_block_size) equal_block_size;
  blocks ← for_range 0 equal_block_count (fun i blocks =>
    let start := matrix_size + equal_block_size * i in
    let end_ := matrix_size + equal_block_size * (i + 1) - 1 in
    let new_values := malloc (junk i) (end_ - start) in
    store blocks i (Some (mkBLOCK start end_ new_values))) blocks;
  if bool_decide (last_block_size ≠ 0) then
    let start := matrix_size + mutatable_indexes_count - last_block_size in
    let end_ := matrix_size * matrix_size - matrix_size - 1 in
    let new_values := malloc (junk (thread_count - 1)) (end_ - start) in
    store blocks (thread_count - 1) (Some (mkBLOCK start end_ new_values))
  else Ok blocks.

(** ** The relaxation step *)

Definition getSuroundingAverage (matrix_size : Z) (matrix : matrix_t)
    (index : Z) : result float :=
  top_value ← load matrix (index - matrix_size);
  right_value ← load matrix (index + 1);
  bottom_value ← load matrix (index + matrix_size);
  left_value ← load matrix (index - 1);
  Ok ((top_value + right_value + bottom_value + left_value) / 4)%float.

(** [m_i % matrix_size != 0 && (m_i+1) % matrix_size != 0] *)
Definition not_edge (matrix_size m_i : Z) : result bool :=
  r1 ← c_rem m_i matrix_size;
  r2 ← c_rem (m_i + 1) matrix_size;
  Ok (bool_decide (r1 ≠ 0) && bool_decide (r2 ≠ 0)).

(** The state the loop of [processBlock] works on: the block's scratch
    cells and the global [value_change_flag]. *)
Definition scratch_t : Type := list float * Z.

(** One iteration of the loop of [processBlock], at grid index [m_i]. *)
Definition processBlock_body (matrix_size : Z) (decimal_value : float)
    (matrix : matrix_t) (start_index : Z) (m_i : Z) (s : scratch_t)
    : result scratch_t :=
  let '(new_values, value_change_flag) := s in
  let b_i := m_i - start_index in
  inner ← not_edge matrix_size m_i;
  if inner : bool then
    new_value ← getSuroundingAverage matrix_size matrix m_i;
    old_value ← load new_values b_i;
    let diff := (new_value - old_value)%float in
    let value_change_flag :=
      if (decimal_value <? diff)%float then 1 else value_change_flag in
    new_values ← store new_values b_i new_value;
    Ok (new_values, value_change_flag)
  else
    v ← load matrix m_i;
    new_values ← store new_values b_i v;
    Ok (new_values, value_change_flag).

(** [processBlock(block)]: returns the block with its scratch cells
    rewritten and the new [value_change_flag]. *)
Definition processBlock (matrix_size : Z) (decimal_value : float)
    (matrix : matrix_t) (value_change_flag : Z) (block : BLOCK)
    : result (BLOCK * Z) :=
  let start_index := start_index block in
  let end_index := end_index block in
  '(new_values, value_change_flag) ←
    for_range start_index (end_index + 1)
      (processBlock_body matrix_size decimal_value matrix start_index)
      (new_values block, value_change_flag);
  Ok (mkBLOCK start_index end_index new_values, value_change_flag).

(** ** The commit step *)

(** One iteration of the inner loop of [updateMatrix]. *)
Definition updateMatrix_body (matrix_size : Z) (block : BLOCK) (m_i : Z)
    (matrix : matrix_t) : result matrix_t :=
  let b_i := m_i - start_index block in
  inner ← not_edge matrix_size m_i;
  if inner : bool then
    v ← load (new_values block) b_i;
    store matrix m_i v
  else Ok matrix.

(** [blocks[i]] read as a BLOCK. *)
Definition get_block (blocks : blocks_t) (i : Z) : result BLOCK :=
  entry ← load blocks i;
  match entry with
  | Some block => Ok block
  | None => Fault UninitialisedBlock
  end.

Definition updateMatrix (matrix_size thread_count : Z) (blocks : blocks_t)
    (matrix : matrix_t) : result matrix_t :=
  for_range 0 thread_count (fun i matrix =>
    block ← get_block blocks i;
    for_range (start_index block) (end_index block + 1)
      (updateMatrix_body matrix_size block) matrix) matrix.

(** ** The cycle loop of [main] *)

Record state : Type := mkState {
  matrix : matrix_t;
  blocks : blocks_t;
  value_change_flag : Z
}.

(** [for (i = 0; i < thread_count; i++) processBlock(&blocks[i]);] *)
Definition processBlocks (matrix_size thread_count : Z)
    (decimal_value : float) (matrix : matrix_t) (s : blocks_t * Z)
    : result (blocks_t * Z) :=
  for_range 0 thread_count (fun i '(blocks, value_change_flag) =>
    block ← get_block blocks i;
    '(block, value_change_flag) ←
      processBlock matrix_size decimal_value matrix value_change_flag block;
    blocks ← store blocks i (Some block);
    Ok (blocks, value_change_flag)) s.

(** How one pass through the body of [while (1)] ends. *)
Inductive cycle_end : Type :=
| Break (st : state)      (* no change was flagged: the loop is left *)
| Continue (st : state).  (* the scratch values were committed *)

Definition cycle (matrix_size thread_count : Z) (decimal_value : float)
    (st : state) : result cycle_end :=
  '(blocks, flag) ← processBlocks matrix_size thread_count decimal_value
                      (matrix st) (blocks st, value_change_flag st);
  if bool_decide (flag = 0) then Ok (Break (mkState (matrix st) blocks flag))
  else
    matrix ← updateMatrix matrix_size thread_count blocks (matrix st);
    Ok (Continue (mkState matrix blocks 0)).

(** The [while (1)] loop, cut off after [fuel] cycles: [Some (n, st)] when
    the loop was left in the [n]-th cycle with the globals [st], [None]
    when it is still running after [fuel] cycles. *)
Fixpoint relaxation_loop (fuel : nat) (matrix_size thread_count : Z)
    (decimal_value : float) (cycles : nat) (st : state)
    : result (option (nat * state)) :=
  match fuel with
  | O => Ok None
  | S fuel' =>
      e ← cycle matrix_size thread_count decimal_value st;
      match e with
      | Break st' => Ok (Some (S cycles, st'))
      | Continue st' =>
          relaxation_loop fuel' matrix_size thread_count decimal_value
            (S cycles) st'
      end
  end.

(** [main] from the point where the arguments are parsed:
    [matrix_size] and [decimal_value = pow(0.1, decimal_precision)] are
    given, [thread_count] is set to 1. *)
Definition main (fuel : nat) (junk_matrix : nat -> float)
    (junk_blocks : Z -> nat -> float) (matrix_size : Z)
    (decimal_value : float) : result (option (nat * state)) :=
  let thread_count := 1 in
  matrix ← makeMatrix junk_matrix matrix_size;
  blocks ← makeBlocks junk_blocks matrix_size thread_count;
  relaxation_loop fuel matrix_size thread_count decimal_value 0
    (mkState matrix blocks 0).

(** ** Timing *)

(** A [struct timeval]. *)
Record timeval : Set := mkTimeval { tv_sec : Z; tv_usec : Z }.

(** The conversion of a 64-bit [long] to [double]: the magnitude
    correctly rounded, with the sign; [LONG_MIN], whose magnitude 2^63 is
    no 63-bit integer, converts exactly. *)
Definition double_of_long (z : Z) : float :=
  if bool_decide (0 <= z) then of_uint63 (Uint63.of_Z z)
  else if bool_decide (z = - 2 ^ 63) then (- 0x1p63)%float
  else (- of_uint63 (Uint63.of_Z (- z)))%float.

(** [1e-6] as the compiler reads it, the closest binary64 number. *)
Definition micro : float := 0x1.0c6f7a0b5ed8dp-20%float.

Definition getTimeTaken (start_time end_time : timeval) : float :=
  let res :=
    (double_of_long (tv_sec end_time - tv_sec start_time) * 1000000)%float in
  let res :=
    ((res + double_of_long (tv_usec end_time - tv_usec start_time))
     * micro)%float in
  res.

(** * Vocabulary of the properties *)

(** ** Grid and boundary *)

(** The value [makeMatrix] gives the cell of row [i] and column [j]. *)
Definition initial_cell (i j : Z) : float :=
  if bool_decide (i = 0) || bool_decide (j = 0) then 1%float else 0%float.

(** The cells of row 0 and of column 0 hold exactly 1.0. *)
Definition boundary_fixed (matrix_size : Z) (matrix : matrix_t) : Prop :=
  forall i j, 0 <= i < matrix_size -> 0 <= j < matrix_size ->
    i = 0 \/ j = 0 -> load matrix (i * matrix_size + j) = Ok 1%float.

(** The cell of row [i] and column [j] lies on the fixed boundary. *)
Definition on_boundary (matrix_size i j : Z) : Prop :=
  0 <= i < matrix_size /\ 0 <= j < matrix_size /\ (i = 0 \/ j = 0).

(** ** Blocks and their ranges *)

(** The block that iteration [i] of the first loop of [makeBlocks] builds,
    for an equal block size [E]. *)
Definition equal_block (junk : Z -> nat -> float) (size E i : Z) : BLOCK :=
  mkBLOCK (size + E * i) (size + E * (i + 1) - 1)
    (malloc (junk i) (size + E * (i + 1) - 1 - (size + E * i))).

(** The block that absorbs the remainder [R] of [M] mutable indexes. *)
Definition last_block (junk : Z -> nat -> float) (size tc M R : Z) : BLOCK :=
  mkBLOCK (size + M - R) (size * size - size - 1)
    (malloc (junk (tc - 1)) (size * size - size - 1 - (size + M - R))).

(** The entries of the [blocks] array that were assigned, in order. *)
Definition written (blocks : blocks_t) : list BLOCK := omap id blocks.

(** Grid index [i] lies in the range of block [b]. *)
Definition in_block (b : BLOCK) (i : Z) : Prop :=
  start_index b <= i <= end_index b.

(** The blocks of [l] are non-empty and follow one another without gap
    from [lo] up to, and not including, [hi]. *)
Fixpoint consecutive (lo : Z) (l : list BLOCK) (hi : Z) : Prop :=
  match l with
  | [] => lo = hi
  | b :: l' =>
      start_index b = lo /\ lo <= end_index b
      /\ consecutive (end_index b + 1) l' hi
  end.

(** Every assigned block starts at or after the second row. *)
Definition blocks_in_interior (matrix_size : Z) (bs : blocks_t) : Prop :=
  Forall (fun entry => forall b, entry = Some b -> matrix_size <= start_index b)
    bs.

(** ** Scratch slots *)

(** The value one iteration of [processBlock] writes to the scratch slot
    of grid index [m_i]: the average of the neighbours, or the cell itself
    on the left and right columns. *)
Definition cell_value (matrix_size : Z) (matrix : matrix_t) (m_i : Z)
    : result float :=
  inner ← not_edge matrix_size m_i;
  if inner : bool then getSuroundingAverage matrix_size matrix m_i
  else load matrix m_i.

(** The scratch slot of [m_i] holds the value the relaxation step
    computes for it. *)
Definition settled (matrix_size : Z) (matrix : matrix_t) (start : Z)
    (new_values : list float) (m_i : Z) : Prop :=
  exists v, cell_value matrix_size matrix m_i = Ok v
            /\ load new_values (m_i - start) = Ok v.

(** ** Cycles *)

(** [st'] is the state of the globals one pass through the body of the
    [while] loop after [st]. *)
Definition cycle_step (matrix_size thread_count : Z) (decimal_value : float)
    (st st' : state) : Prop :=
  cycle matrix_size thread_count decimal_value st = Ok (Continue st')
  \/ cycle matrix_size thread_count decimal_value st = Ok (Break st').

(** What the boundary invariance rests on. *)
Definition boundary_invariant (matrix_size : Z) (st : state) : Prop :=
  boundary_fixed matrix_size (matrix st)
  /\ blocks_in_interior matrix_size (blocks st).

(** ** The 3 x 3 grid *)

(** The 3 x 3 grid as [makeMatrix] creates it. *)
Definition grid3 : matrix_t :=
  [1%float; 1%float; 1%float;
   1%float; 0%float; 0%float;
   1%float; 0%float; 0%float].

(** The 3 x 3 grid after the only mutable cell took its average. *)
Definition grid3_final : matrix_t :=
  [1%float; 1%float; 1%float;
   1%float; 0.5%float; 0%float;
   1%float; 0%float; 0%float].

(** [pow(0.1, 2)], correctly rounded. *)
Definition precision2 : float := 0x1.47ae147ae147cp-7%float.

(** A state in which the scratch buffer has a slot for every index of the
    block, and the state one committing cycle later. *)
Definition roomy_state3 : state :=
  mkState grid3 [Some (mkBLOCK 3 5 [0%float; 0%float; 0%float])] 0.

Definition committed_state3 : state :=
  mkState grid3_final [Some (mkBLOCK 3 5 [1%float; 0.5%float; 0%float])] 0.

(** ** Relaxed indexes and the change test *)

(** Grid index [k] is not on the left or right column and lies in the
    range of one of the first [n] entries of the [blocks] array: the
    indexes the relaxation step averages and the commit step writes. *)
Definition relaxed (matrix_size n : Z) (bs : blocks_t) (k : Z) : Prop :=
  not_edge matrix_size k = Ok true
  /\ exists i b, 0 <= i < n /\ load bs i = Ok (Some b) /\ in_block b k.

(** The change test of [processBlock] at grid index [k], on the scratch
    cells the block has before the pass: whether the average of the
    neighbours minus the previous content of the slot exceeds the
    threshold. *)
Definition change_at (matrix_size : Z) (decimal_value : float)
    (matrix : matrix_t) (b : BLOCK) (k : Z) : result bool :=
  new_value ← getSuroundingAverage matrix_size matrix k;
  old_value ← load (new_values b) (k - start_index b);
  Ok (decimal_value <? new_value - old_value)%float.

(** The grid while the commit step, run on the blocks [bs] a pass left
    from the grid [old], is at index [m_i] of entry [j]: the
    relaxed indexes already passed hold their average on the old grid,
    every other cell is as in the old grid. *)
Definition committed_upto (matrix_size : Z) (old : matrix_t) (bs : blocks_t)
    (j : Z) (b : BLOCK) (m_i : Z) (m : matrix_t) : Prop :=
  forall k,
    (not_edge matrix_size k = Ok true ->
     (exists i b', 0 <= i < j /\ load bs i = Ok (Some b') /\ in_block b' k)
     \/ start_index b <= k < m_i ->
     load m k = getSuroundingAverage matrix_size old k)
    /\ (~ (not_edge matrix_size k = Ok true
           /\ ((exists i b', 0 <= i < j /\ load bs i = Ok (Some b')
                             /\ in_block b' k)
               \/ start_index b <= k < m_i)) ->
        load m k = load old k).

(** ** Blocks and states that fit the grid *)

(** The range of [b] lies in the rows between the first and the last, and
    its scratch buffer has a slot for every index of the range. *)
Definition block_fits (matrix_size : Z) (b : BLOCK) : Prop :=
  matrix_size <= start_index b
  /\ end_index b <= matrix_size * matrix_size - matrix_size - 1
  /\ end_index b - start_index b + 1 <= Z.of_nat (length (new_values b)).

(** The grid has [matrix_size * matrix_size] cells and each of the
    [thread_count] entries of the [blocks] array is assigned a block that
    fits. *)
Definition state_fits (matrix_size thread_count : Z) (st : state) : Prop :=
  0 < matrix_size
  /\ length (matrix st) = Z.to_nat (matrix_size * matrix_size)
  /\ forall i, 0 <= i < thread_count ->
       exists b, load (blocks st) i = Ok (Some b) /\ block_fits matrix_size b.

(** * Properties *)

(** ** The result monad, loads and stores *)

Lemma bind_Ok {A B} (r : result A) (k : A -> result B) (b : B) :
  r ≫= k = Ok b <-> exists a, r = Ok a /\ k a = Ok b.
Proof.
  destruct r as [a|f]; simpl; split.
  - intros H. exists a. auto.
  - intros (a' & [= ->] & H). exact H.
  - discriminate.
  - intros (a' & [=] & _).
Qed.

Lemma load_Ok {A} (a : list A) (i : Z) (v : A) :
  load a i = Ok v <-> 0 <= i /\ a !! Z.to_nat i = Some v.
Proof.
  unfold load. case_bool_decide as Hi.
  - destruct (a !! Z.to_nat i) as [w|]; split.
    + intros [= ->]. done.
    + intros [_ [= ->]]. done.
    + discriminate.
    + intros [_ [=]].
  - split; [discriminate | lia].
Qed.

Lemma load_in_range {A} (a : list A) (i : Z) :
  0 <= i < Z.of_nat (length a) -> exists v, load a i = Ok v.
Proof.
  intros H. destruct (lookup_lt_is_Some_2 a (Z.to_nat i)) as [v Hv]; [lia|].
  exists v. apply load_Ok. split; [lia | done].
Qed.

Lemma load_Ok_range {A} (a : list A) (i : Z) (v : A) :
  load a i = Ok v -> 0 <= i < Z.of_nat (length a).
Proof.
  intros [H1 H2]%load_Ok. apply lookup_lt_Some in H2. lia.
Qed.

Lemma store_Ok {A} (a a' : list A) (i : Z) (v : A) :
  store a i v = Ok a' <->
  0 <= i < Z.of_nat (length a) /\ a' = <[Z.to_nat i := v]> a.
Proof.
  unfold store. case_bool_decide as Hi; split.
  - intros [= <-]. done.
  - intros [_ ->]. done.
  - discriminate.
  - intros [Hr _]. done.
Qed.

Lemma store_length {A} (a a' : list A) (i : Z) (v : A) :
  store a i v = Ok a' -> length a' = length a.
Proof.
  intros [_ ->]%store_Ok. apply length_insert.
Qed.

Lemma load_store_eq {A} (a a' : list A) (i : Z) (v : A) :
  store a i v = Ok a' -> load a' i = Ok v.
Proof.
  intros [H ->]%store_Ok. apply load_Ok. split; [lia|].
  apply list_lookup_insert_eq. lia.
Qed.

Lemma load_store_ne {A} (a a' : list A) (i j : Z) (v : A) :
  store a i v = Ok a' -> i <> j -> load a' j = load a j.
Proof.
  intros [H ->]%store_Ok Hij. unfold load.
  case_bool_decide as Hj; [|done].
  rewrite list_lookup_insert_ne by lia. done.
Qed.

Lemma store_same {A} (a : list A) (i : Z) (v : A) :
  load a i = Ok v -> store a i v = Ok a.
Proof.
  intros Hl. pose proof (load_Ok_range _ _ _ Hl) as Hr.
  apply load_Ok in Hl as [_ Hl].
  apply store_Ok. split; [done|]. by rewrite list_insert_id.
Qed.

(** Inversion of a computation that returned [Ok]. *)
Ltac inv_Ok :=
  repeat match goal with
  | H : _ ≫= _ = Ok _ |- _ =>
      let x := fresh "x" in let Hx := fresh "H" x in
      apply bind_Ok in H as (x & Hx & H)
  | H : Ok _ = Ok _ |- _ => injection H as H
  | H : Fault _ = Ok _ |- _ => discriminate H
  | H : (_, _) = (_, _) |- _ => injection H as ? ?
  end.

(** ** binary64 facts *)

(** [x - x] is [+0] or not a number. *)
Lemma SFsub_diag (x : spec_float) :
  SF64sub x x = S754_zero false \/ SF64sub x x = S754_nan.
Proof.
  unfold SF64sub.
  destruct x as [s|s| |s m e]; simpl.
  - destruct s; auto.
  - destruct s; auto.
  - auto.
  - rewrite Z.sub_diag. auto.
Qed.

(** A difference [x - x] never exceeds a threshold that is not negative. *)
Lemma sub_diag_not_above (decimal_value x : float) :
  (decimal_value <? 0)%float = false ->
  (decimal_value <? x - x)%float = false.
Proof.
  intros H. rewrite ltb_spec in H. rewrite ltb_spec, sub_spec.
  destruct (SFsub_diag (Prim2SF x)) as [-> | ->].
  - exact H.
  - unfold SFltb, SFcompare. by destruct (Prim2SF decimal_value).
Qed.

(** ** Loop invariants *)

(** Total correctness: an invariant that every iteration re-establishes
    without fault holds when the loop is left, and the loop is left. *)
Lemma for_loop_total {St} (P : Z -> St -> Prop) (body : Z -> St -> result St)
    (n : nat) (i : Z) (s : St) :
  P i s ->
  (forall k s, i <= k < i + Z.of_nat n -> P k s ->
     exists s', body k s = Ok s' /\ P (k + 1) s') ->
  exists s', for_loop n i body s = Ok s' /\ P (i + Z.of_nat n) s'.
Proof.
  revert i s. induction n as [|n IH]; intros i s HP Hstep; simpl.
  - exists s. split; [done|]. by replace (i + Z.of_nat 0) with i by lia.
  - destruct (Hstep i s) as (s1 & -> & HP1); [lia | done |]. simpl.
    destruct (IH (i + 1) s1 HP1) as (s' & Hs' & HP').
    { intros k s2 Hk. apply Hstep. lia. }
    exists s'. split; [done|].
    by replace (i + Z.of_nat (S n)) with (i + 1 + Z.of_nat n) by lia.
Qed.

(** Partial correctness: what holds of the state of a loop that was left
    without fault. *)
Lemma for_loop_partial {St} (P : Z -> St -> Prop) (body : Z -> St -> result St)
    (n : nat) (i : Z) (s s' : St) :
  for_loop n i body s = Ok s' ->
  P i s ->
  (forall k s s', i <= k < i + Z.of_nat n -> P k s ->
     body k s = Ok s' -> P (k + 1) s') ->
  P (i + Z.of_nat n) s'.
Proof.
  revert i s. induction n as [|n IH]; intros i s Hrun HP Hstep; simpl in *.
  - injection Hrun as <-. by replace (i + Z.of_nat 0) with i by lia.
  - apply bind_Ok in Hrun as (s1 & Hb & Hrun).
    replace (i + Z.of_nat (S n)) with (i + 1 + Z.of_nat n) by lia.
    apply (IH (i + 1) s1 Hrun).
    + apply (Hstep i s); [lia | done | done].
    + intros k s2 s3 Hk. apply Hstep. lia.
Qed.

Lemma for_range_empty {St} (lo hi : Z) (body : Z -> St -> result St) (s : St) :
  hi <= lo -> for_range lo hi body s = Ok s.
Proof.
  intros H. unfold for_range. by replace (Z.to_nat (hi - lo)) with O by lia.
Qed.

Lemma for_range_total {St} (P : Z -> St -> Prop) (body : Z -> St -> result St)
    (lo hi : Z) (s : St) :
  lo <= hi ->
  P lo s ->
  (forall k s, lo <= k < hi -> P k s ->
     exists s', body k s = Ok s' /\ P (k + 1) s') ->
  exists s', for_range lo hi body s = Ok s' /\ P hi s'.
Proof.
  intros Hle HP Hstep.
  destruct (for_loop_total P body (Z.to_nat (hi - lo)) lo s HP)
    as (s' & Hs' & HP').
  { intros k s1 Hk. apply Hstep. lia. }
  exists s'. split; [done|].
  by replace (lo + Z.of_nat (Z.to_nat (hi - lo))) with hi in HP' by lia.
Qed.

Lemma for_range_partial {St} (P : Z -> St -> Prop) (body : Z -> St -> result St)
    (lo hi : Z) (s s' : St) :
  lo <= hi ->
  for_range lo hi body s = Ok s' ->
  P lo s ->
  (forall k s s', lo <= k < hi -> P k s -> body k s = Ok s' -> P (k + 1) s') ->
  P hi s'.
Proof.
  intros Hle Hrun HP Hstep.
  replace hi with (lo + Z.of_nat (Z.to_nat (hi - lo))) by lia.
  apply (for_loop_partial P body _ lo s s' Hrun HP).
  intros k s1 s2 Hk. apply Hstep. lia.
Qed.

(** ** Grid creation *)

Lemma malloc_length (junk : nat -> float) (n : Z) :
  length (malloc junk n) = Z.to_nat n.
Proof. unfold malloc. by rewrite length_fmap, length_seq. Qed.

Lemma row_major_lt (size i j : Z) :
  0 <= i < size -> 0 <= j < size -> 0 <= i * size + j < size * size.
Proof. nia. Qed.

Lemma makeMatrix_row (size i : Z) (m : matrix_t) :
  0 <= i < size ->
  length m = Z.to_nat (size * size) ->
  exists m',
    for_range 0 size (fun j matrix =>
      if bool_decide (i = 0) || bool_decide (j = 0)
      then store matrix (i * size + j) 1%float
      else store matrix (i * size + j) 0%float) m = Ok m'
    /\ length m' = Z.to_nat (size * size)
    /\ (forall j, 0 <= j < size ->
          load m' (i * size + j) = Ok (initial_cell i j))
    /\ (forall k, 0 <= k -> ~ (i * size <= k < i * size + size) ->
          load m' k = load m k).
Proof.
  intros Hi Hlen.
  destruct (for_range_total
    (fun j m' =>
       length m' = Z.to_nat (size * size)
       /\ (forall j', 0 <= j' < j ->
             load m' (i * size + j') = Ok (initial_cell i j'))
       /\ (forall k, 0 <= k -> ~ (i * size <= k < i * size + size) ->
             load m' k = load m k))
    (fun j matrix =>
      if bool_decide (i = 0) || bool_decide (j = 0)
      then store matrix (i * size + j) 1%float
      else store matrix (i * size + j) 0%float) 0 size m)
    as (m' & Hrun & Hlen' & Hrow & Hrest).
  - lia.
  - split; [done|]. split; [intros; lia | done].
  - intros j m1 Hj (Hlen1 & Hrow1 & Hrest1).
    pose proof (row_major_lt size i j Hi Hj) as Hin.
    assert (exists m2, store m1 (i * size + j) (initial_cell i j) = Ok m2)
      as [m2 Hst].
    { unfold store. rewrite bool_decide_eq_true_2 by lia. eauto. }
    exists m2. split.
    { unfold initial_cell in Hst.
      by destruct (bool_decide (i = 0) || bool_decide (j = 0)). }
    split; [by rewrite (store_length _ _ _ _ Hst)|]. split.
    + intros j' Hj'. destruct (decide (j' = j)) as [->|Hne].
      * by apply load_store_eq with m1.
      * rewrite (load_store_ne _ _ _ _ _ Hst) by (lia || nia). apply Hrow1. lia.
    + intros k Hk Hout.
      rewrite (load_store_ne _ _ _ _ _ Hst) by lia. by apply Hrest1.
  - exists m'. split; [done|]. split; [done|]. split; [|done].
    intros j Hj. apply Hrow. lia.
Qed.

(** [makeMatrix] returns, for every non-negative size, a grid of
    [matrix_size * matrix_size] cells laid out by rows, each holding its
    initial value. *)
Lemma makeMatrix_spec (junk : nat -> float) (size : Z) :
  0 <= size ->
  exists m, makeMatrix junk size = Ok m
    /\ length m = Z.to_nat (size * size)
    /\ forall i j, 0 <= i < size -> 0 <= j < size ->
         load m (i * size + j) = Ok (initial_cell i j).
Proof.
  intros Hsize. unfold makeMatrix.
  destruct (for_range_total
    (fun i m =>
       length m = Z.to_nat (size * size)
       /\ forall i' j, 0 <= i' < i -> 0 <= j < size ->
            load m (i' * size + j) = Ok (initial_cell i' j))
    (fun i matrix =>
      for_range 0 size (fun j matrix =>
        if bool_decide (i = 0) || bool_decide (j = 0)
        then store matrix (i * size + j) 1%float
        else store matrix (i * size + j) 0%float) matrix)
    0 size (malloc junk (size * size)))
    as (m & Hrun & Hlen & Hcells).
  - done.
  - split; [apply malloc_length | intros; lia].
  - intros i m1 Hi (Hlen1 & Hcells1).
    destruct (makeMatrix_row size i m1 Hi Hlen1)
      as (m2 & Hrow & Hlen2 & Hnew & Hold).
    exists m2. split; [done|]. split; [done|].
    intros i' j Hi' Hj. destruct (decide (i' = i)) as [->|Hne].
    + by apply Hnew.
    + rewrite Hold by nia. apply Hcells1; lia.
  - exists m. split; [done|]. split; [done|].
    intros i j Hi Hj. by apply Hcells.
Qed.

(** For a negative size no loop iteration runs: the grid is the memory
    as [malloc] returned it. *)
Lemma makeMatrix_negative (junk : nat -> float) (size : Z) :
  size < 0 -> makeMatrix junk size = Ok (malloc junk (size * size)).
Proof. intros H. unfold makeMatrix. apply for_range_empty. lia. Qed.

Lemma makeMatrix_boundary (junk : nat -> float) (size : Z) (m : matrix_t) :
  makeMatrix junk size = Ok m -> boundary_fixed size m.
Proof.
  intros Hm i j Hi Hj Hedge.
  destruct (makeMatrix_spec junk size) as (m' & Hm' & _ & Hcells); [lia|].
  assert (m' = m) as -> by congruence.
  rewrite Hcells by done. unfold initial_cell.
  destruct Hedge as [-> | ->].
  - by rewrite bool_decide_eq_true_2.
  - rewrite (bool_decide_eq_true_2 (0 = 0)) by done.
    by rewrite orb_true_r.
Qed.

(** ** The partition *)

Lemma fill_blocks (f : Z -> BLOCK) (tc count : Z) :
  0 <= count <= tc ->
  for_range 0 count (fun i (blocks : blocks_t) => store blocks i (Some (f i)))
    (replicate (Z.to_nat tc) None)
  = Ok (((fun i => Some (f i)) <$> seqZ 0 count)
        ++ replicate (Z.to_nat (tc - count)) None).
Proof.
  intros Hc.
  destruct (for_range_total
    (fun k (bs : blocks_t) =>
       bs = ((fun i => Some (f i)) <$> seqZ 0 k)
            ++ replicate (Z.to_nat (tc - k)) None)
    (fun i (blocks : blocks_t) => store blocks i (Some (f i)))
    0 count (replicate (Z.to_nat tc) None)) as (bs & Hrun & ->).
  - lia.
  - simpl. by rewrite Z.sub_0_r.
  - intros k bs Hk ->.
    eexists. split.
    + unfold store. rewrite bool_decide_eq_true_2; [reflexivity|].
      rewrite length_app, length_fmap, length_seqZ, length_replicate. lia.
    + rewrite insert_app_r_alt
        by (rewrite length_fmap, length_seqZ; lia).
      rewrite length_fmap, length_seqZ, Nat.sub_diag.
      replace (Z.to_nat (tc - k)) with (S (Z.to_nat (tc - (k + 1)))) by lia.
      rewrite seqZ_app by lia. rewrite fmap_app, <- app_assoc.
      reflexivity.
  - done.
Qed.

(** The integer facts the partition rests on. *)
Lemma partition_arith (M tc : Z) :
  1 <= M -> 1 <= tc ->
  let E := ceil_div M tc in
  let R := Z.rem M E in
  let count := Z.quot (M - R) E in
  1 <= E /\ 0 <= R < E /\ M = E * count + R
  /\ 1 <= count <= tc /\ (R <> 0 -> count < tc)
  /\ (M <= tc -> E = 1).
Proof.
  intros HM Htc. unfold ceil_div. cbv zeta.
  pose proof (Z.div_mod (- M) tc ltac:(lia)) as Hdm.
  pose proof (Z.mod_pos_bound (- M) tc ltac:(lia)) as Hmb.
  set (q := (- M) `div` tc) in *. set (r := (- M) `mod` tc) in *.
  assert (q <= -1) as Hq.
  { destruct (Z_lt_le_dec q 0); [lia | nia]. }
  set (E := - q) in *.
  assert (1 <= E) as HE by lia.
  rewrite Z.rem_mod_nonneg by lia.
  pose proof (Z.div_mod M E ltac:(lia)) as Hdm'.
  pose proof (Z.mod_pos_bound M E ltac:(lia)) as Hmb'.
  pose proof (Z.mod_le M E ltac:(lia) ltac:(lia)) as Hle.
  rewrite Z.quot_div_nonneg by lia.
  assert ((M - M `mod` E) `div` E = M `div` E) as ->.
  { symmetry. apply (Z.div_unique _ _ _ 0); lia. }
  repeat split; try lia; try nia.
Qed.

Lemma written_assigned (f : Z -> BLOCK) (l : list Z) :
  written ((fun i => Some (f i)) <$> l) = f <$> l.
Proof.
  unfold written. induction l as [|i l IH]; csimpl; [done|]. by rewrite IH.
Qed.

Lemma written_unassigned (n : nat) : written (replicate n None) = [].
Proof. unfold written. induction n as [|n IH]; csimpl; done. Qed.

Lemma written_one_assigned (n i : nat) (b : BLOCK) :
  (i < n)%nat -> written (<[i := Some b]> (replicate n None)) = [b].
Proof.
  unfold written. revert i. induction n as [|n IH]; intros i Hi; [lia|].
  destruct i as [|i]; csimpl.
  - f_equal. apply (written_unassigned n).
  - apply IH. lia.
Qed.

(** What [makeBlocks] returns whenever there is at least one mutable index
    and at least one thread. *)
Lemma makeBlocks_spec (junk : Z -> nat -> float) (size tc : Z) :
  1 <= size * size - size * 2 -> 1 <= tc ->
  let M := size * size - size * 2 in
  let E := ceil_div M tc in
  let R := Z.rem M E in
  let count := Z.quot (M - R) E in
  makeBlocks junk size tc =
    Ok (let bs := ((fun i => Some (equal_block junk size E i)) <$> seqZ 0 count)
                  ++ replicate (Z.to_nat (tc - count)) None in
        if bool_decide (R <> 0)
        then <[Z.to_nat (tc - 1) := Some (last_block junk size tc M R)]> bs
        else bs).
Proof.
  intros HM Htc M E R count.
  destruct (partition_arith M tc HM Htc) as (HE & HR & Hsum & Hcount & Hlast & _).
  fold E R count in HE, HR, Hsum, Hcount, Hlast.
  unfold makeBlocks. fold M.
  rewrite (bool_decide_eq_false_2 (tc = 0)) by lia.
  cbn [mbind result_bind]. fold E.
  unfold c_rem. rewrite (bool_decide_eq_false_2 (E = 0)) by lia.
  cbn [mbind result_bind]. fold R.
  unfold c_quot. rewrite (bool_decide_eq_false_2 (E = 0)) by lia.
  cbn [mbind result_bind]. fold count.
  change (for_range 0 count _ _) with
    (for_range 0 count
       (fun i (blocks : blocks_t) =>
          store blocks i (Some (equal_block junk size E i)))
       (replicate (Z.to_nat tc) None)).
  rewrite (fill_blocks (equal_block junk size E) tc count) by lia.
  cbn [mbind result_bind].
  case_bool_decide as HR0; [|done].
  unfold store. rewrite bool_decide_eq_true_2; [reflexivity|].
  rewrite length_app, length_fmap, length_seqZ, length_replicate. lia.
Qed.

Lemma makeBlocks_written (junk : Z -> nat -> float) (size tc : Z) :
  1 <= size * size - size * 2 -> 1 <= tc ->
  let M := size * size - size * 2 in
  let E := ceil_div M tc in
  let R := Z.rem M E in
  let count := Z.quot (M - R) E in
  exists bs, makeBlocks junk size tc = Ok bs
    /\ length bs = Z.to_nat tc
    /\ written bs = (equal_block junk size E <$> seqZ 0 count)
                    ++ (if bool_decide (R <> 0)
                        then [last_block junk size tc M R] else []).
Proof.
  intros HM Htc M E R count.
  destruct (partition_arith M tc HM Htc) as (HE & HR & Hsum & Hcount & Hlast & _).
  fold E R count in HE, HR, Hsum, Hcount, Hlast.
  eexists. split; [by apply makeBlocks_spec|]. cbv zeta. fold M E R count.
  case_bool_decide as HR0.
  - split.
    + rewrite length_insert, length_app, length_fmap, length_seqZ,
        length_replicate. lia.
    + rewrite insert_app_r_alt by (rewrite length_fmap, length_seqZ; lia).
      unfold written. rewrite omap_app.
      fold (written ((fun i => Some (equal_block junk size E i)) <$> seqZ 0 count)).
      rewrite written_assigned. f_equal.
      apply written_one_assigned.
      rewrite length_fmap, length_seqZ. lia.
  - split.
    + rewrite length_app, length_fmap, length_seqZ, length_replicate. lia.
    + unfold written. rewrite omap_app.
      fold (written ((fun i => Some (equal_block junk size E i)) <$> seqZ 0 count)).
      fold (written (replicate (Z.to_nat (tc - count)) None)).
      by rewrite written_assigned, written_unassigned.
Qed.

(** ** The relaxation step *)

Section Relaxation.

Variable matrix_size : Z.
Variable decimal_value : float.
Variable matrix : matrix_t.

(** What an iteration that returned did: the value of the cell went to
    its slot, and the flag was raised exactly when the value exceeds the
    slot's previous content by more than the threshold. *)
Lemma processBlock_body_Ok (start m_i : Z) (nv nv' : list float) (f f' : Z) :
  processBlock_body matrix_size decimal_value matrix start m_i (nv, f)
    = Ok (nv', f') ->
  exists inner v old,
    not_edge matrix_size m_i = Ok inner
    /\ cell_value matrix_size matrix m_i = Ok v
    /\ load nv (m_i - start) = Ok old
    /\ store nv (m_i - start) v = Ok nv'
    /\ f' = if inner && (decimal_value <? v - old)%float then 1 else f.
Proof.
  unfold processBlock_body, cell_value. intros H.
  apply bind_Ok in H as (inner & Hinner & H). rewrite Hinner.
  exists inner. destruct inner; cbn [mbind result_bind]; inv_Ok.
  - subst. exists x, x0. repeat split; done.
  - subst.
    destruct (load_in_range nv (m_i - start)) as [old Hold].
    { by apply store_Ok in Hx0 as [? _]. }
    exists x, old. repeat split; done.
Qed.

Lemma processBlock_body_settles (start m_i : Z) (nv nv' : list float)
    (f f' : Z) :
  processBlock_body matrix_size decimal_value matrix start m_i (nv, f)
    = Ok (nv', f') ->
  settled matrix_size matrix start nv' m_i
  /\ forall k, k <> m_i -> settled matrix_size matrix start nv k -> settled matrix_size matrix start nv' k.
Proof.
  intros (inner & v & old & _ & Hv & _ & Hst & _)%processBlock_body_Ok.
  split.
  - exists v. split; [done|]. by apply load_store_eq with nv.
  - intros k Hk (w & Hw & Hl). exists w. split; [done|].
    rewrite (load_store_ne _ _ _ _ _ Hst) by lia. done.
Qed.

(** On a settled slot an iteration changes nothing, whatever the flag. *)
Lemma processBlock_body_settled (start m_i : Z) (nv : list float) (f : Z) :
  (decimal_value <? 0)%float = false ->
  settled matrix_size matrix start nv m_i ->
  processBlock_body matrix_size decimal_value matrix start m_i (nv, f)
    = Ok (nv, f).
Proof.
  intros Hdv (v & Hv & Hl). unfold processBlock_body, cell_value in *.
  destruct (not_edge matrix_size m_i) as [inner|e]; [|done].
  cbn [mbind result_bind] in *. destruct inner.
  - rewrite Hv. cbn [mbind result_bind]. rewrite Hl.
    cbn [mbind result_bind]. rewrite (store_same _ _ _ Hl).
    cbn [mbind result_bind]. by rewrite sub_diag_not_above.
  - rewrite Hv. cbn [mbind result_bind]. rewrite (store_same _ _ _ Hl).
    done.
Qed.

Lemma processBlock_settles (f f' : Z) (b b' : BLOCK) :
  processBlock matrix_size decimal_value matrix f b = Ok (b', f') ->
  start_index b' = start_index b /\ end_index b' = end_index b
  /\ forall k, start_index b <= k <= end_index b ->
       settled matrix_size matrix (start_index b) (new_values b') k.
Proof.
  unfold processBlock. intros H.
  apply bind_Ok in H as ([nv' f1] & Hloop & H). injection H as <- <-.
  split; [done|]. split; [done|]. simpl.
  destruct (decide (start_index b <= end_index b + 1)) as [Hle|Hgt];
    [|intros; lia].
  intros k Hk.
  apply (for_range_partial
    (fun j (s : scratch_t) =>
       forall k, start_index b <= k < j -> settled matrix_size matrix (start_index b) s.1 k)
    _ _ _ _ _ Hle Hloop).
  - intros; lia.
  - intros j [nv1 g1] [nv2 g2] Hj IH Hbody k' Hk'.
    apply processBlock_body_settles in Hbody as [Hnew Hold]. simpl in *.
    destruct (decide (k' = j)) as [->|Hne]; [done|].
    apply Hold; [done|]. apply IH. lia.
  - lia.
Qed.

(** A block whose slots are all settled is a fixed point of
    [processBlock], and no change is flagged. *)
Lemma processBlock_settled (f : Z) (b : BLOCK) :
  (decimal_value <? 0)%float = false ->
  (forall k, start_index b <= k <= end_index b ->
     settled matrix_size matrix (start_index b) (new_values b) k) ->
  processBlock matrix_size decimal_value matrix f b = Ok (b, f).
Proof.
  intros Hdv Hset. unfold processBlock.
  assert (for_range (start_index b) (end_index b + 1)
            (processBlock_body matrix_size decimal_value matrix (start_index b))
            (new_values b, f) = Ok (new_values b, f)) as ->.
  { destruct (decide (start_index b <= end_index b + 1)) as [Hle|Hgt];
      [|apply for_range_empty; lia].
    destruct (for_range_total
      (fun _ (s : scratch_t) => s = (new_values b, f))
      (processBlock_body matrix_size decimal_value matrix (start_index b))
      (start_index b) (end_index b + 1) (new_values b, f) Hle eq_refl)
      as (s & Hrun & ->); [|done].
    intros k s Hk ->. eexists. split; [|done].
    apply processBlock_body_settled; [done|]. apply Hset. lia. }
  cbn [mbind result_bind]. by destruct b.
Qed.

(** Running [processBlock] on its own result returns it unchanged and
    leaves the flag as it is. *)
Lemma processBlock_idempotent (f f' g : Z) (b b' : BLOCK) :
  (decimal_value <? 0)%float = false ->
  processBlock matrix_size decimal_value matrix f b = Ok (b', f') ->
  processBlock matrix_size decimal_value matrix g b' = Ok (b', g).
Proof.
  intros Hdv (Hs & He & Hset)%processBlock_settles.
  apply processBlock_settled; [done|].
  rewrite Hs, He. exact Hset.
Qed.

End Relaxation.

(** ** A relaxation pass over all blocks *)

Section Pass.

Variables matrix_size thread_count : Z.
Variable decimal_value : float.

Lemma get_block_Ok (bs : blocks_t) (i : Z) (b : BLOCK) :
  get_block bs i = Ok b <-> load bs i = Ok (Some b).
Proof.
  unfold get_block. destruct (load bs i) as [[b'|]|e];
    cbn [mbind result_bind]; split; intros H; try done.
  - by injection H as ->.
  - by injection H as ->.
Qed.

(** One iteration of the loop over the blocks, inverted. *)
Lemma processBlocks_step (m : matrix_t) (i : Z) (bs bs' : blocks_t)
    (f f' : Z) :
  (let '(blocks, value_change_flag) := (bs, f) in
   block ← get_block blocks i;
   '(block, value_change_flag) ←
     processBlock matrix_size decimal_value m value_change_flag block;
   blocks ← store blocks i (Some block);
   Ok (blocks, value_change_flag)) = Ok (bs', f') ->
  exists b b',
    load bs i = Ok (Some b)
    /\ processBlock matrix_size decimal_value m f b = Ok (b', f')
    /\ store bs i (Some b') = Ok bs'.
Proof.
  intros H. cbv beta iota zeta in H.
  apply bind_Ok in H as (b & Hb & H).
  apply bind_Ok in H as ([b' g] & Hp & H).
  apply bind_Ok in H as (bs1 & Hst & H). injection H as <- <-.
  exists b, b'. split; [by apply get_block_Ok | done].
Qed.

(** A pass run on the blocks that a pass returned leaves them as they
    are and flags nothing. *)
Lemma processBlocks_idempotent (m : matrix_t) (bs bs' : blocks_t)
    (f f' g : Z) :
  (decimal_value <? 0)%float = false ->
  processBlocks matrix_size thread_count decimal_value m (bs, f)
    = Ok (bs', f') ->
  processBlocks matrix_size thread_count decimal_value m (bs', g)
    = Ok (bs', g).
Proof.
  intros Hdv Hrun. unfold processBlocks in *.
  destruct (decide (0 <= thread_count)) as [Hle|Hgt];
    [|by rewrite for_range_empty by lia].
  assert (forall i, 0 <= i < thread_count ->
    exists b, load bs' i = Ok (Some b)
      /\ forall g, processBlock matrix_size decimal_value m g b = Ok (b, g))
    as Hfix.
  { apply (for_range_partial
      (fun j (s : blocks_t * Z) =>
         forall i, 0 <= i < j ->
           exists b, load s.1 i = Ok (Some b)
             /\ forall g, processBlock matrix_size decimal_value m g b
                          = Ok (b, g))
      _ _ _ _ _ Hle Hrun).
    - intros; lia.
    - intros j [bs1 f1] [bs2 f2] Hj IH Hstep i Hi.
      apply processBlocks_step in Hstep as (b & b' & Hb & Hp & Hst).
      simpl in *. destruct (decide (i = j)) as [->|Hne].
      + exists b'. split; [by apply load_store_eq with bs1|].
        intros g'. by apply processBlock_idempotent with f1 f2 b.
      + destruct (IH i) as (bi & Hbi & Hfixi); [lia|].
        exists bi. split; [|done].
        by rewrite (load_store_ne _ _ _ _ _ Hst). }
  destruct (for_range_total
    (fun _ (s : blocks_t * Z) => s = (bs', g))
    (fun i '(blocks, value_change_flag) =>
       block ← get_block blocks i;
       '(block, value_change_flag) ←
         processBlock matrix_size decimal_value m value_change_flag block;
       blocks ← store blocks i (Some block);
       Ok (blocks, value_change_flag))
    0 thread_count (bs', g) Hle eq_refl) as (s & Hs & ->); [|done].
  intros i s Hi ->. eexists. split; [|done].
  destruct (Hfix i Hi) as (b & Hb & Hpb).
  rewrite (proj2 (get_block_Ok _ _ _) Hb). cbn [mbind result_bind].
  rewrite Hpb. cbn [mbind result_bind].
  by rewrite (store_same _ _ _ Hb).
Qed.

(** A pass keeps the range of every block. *)
Lemma processBlocks_ranges (P : BLOCK -> Prop) (m : matrix_t)
    (bs bs' : blocks_t) (f f' : Z) :
  (forall b b', start_index b' = start_index b -> P b -> P b') ->
  processBlocks matrix_size thread_count decimal_value m (bs, f)
    = Ok (bs', f') ->
  Forall (fun entry => forall b, entry = Some b -> P b) bs ->
  Forall (fun entry => forall b, entry = Some b -> P b) bs'.
Proof.
  intros HP Hrun Hbs. unfold processBlocks in Hrun.
  destruct (decide (0 <= thread_count)) as [Hle|Hgt].
  2: { rewrite for_range_empty in Hrun by lia. by injection Hrun as <- _. }
  apply (for_range_partial
    (fun _ (s : blocks_t * Z) =>
       Forall (fun entry => forall b, entry = Some b -> P b) s.1)
    _ _ _ _ _ Hle Hrun); [done|].
  intros j [bs1 f1] [bs2 f2] Hj IH Hstep.
  apply processBlocks_step in Hstep as (b & b' & Hb & Hp & Hst).
  simpl in *. apply store_Ok in Hst as [_ ->].
  apply Forall_insert; [done|].
  intros b0 [= <-].
  apply processBlock_settles in Hp as (Hs & _ & _).
  apply (HP b); [done|].
  apply load_Ok in Hb as [_ Hb].
  by apply (Forall_lookup_1 _ _ _ _ IH Hb).
Qed.

End Pass.

(** ** The commit step and the boundary *)

Lemma not_edge_true (size k : Z) :
  not_edge size k = Ok true ->
  size <> 0 /\ Z.rem k size <> 0 /\ Z.rem (k + 1) size <> 0.
Proof.
  unfold not_edge, c_rem. case_bool_decide as Hs; [done|].
  cbn [mbind result_bind]. intros [= H].
  apply andb_true_iff in H as [H1 H2].
  apply bool_decide_eq_true in H1, H2. done.
Qed.

(** A grid index that is not on the left column and not in the first row
    is no boundary cell. *)
Lemma interior_not_boundary (size k i j : Z) :
  size <= k -> Z.rem k size <> 0 -> on_boundary size i j ->
  k <> i * size + j.
Proof.
  intros Hk Hrem (Hi & Hj & [-> | ->]) ->.
  - lia.
  - rewrite Z.add_0_r, Z.rem_mul in Hrem by lia. done.
Qed.

Section Commit.

Variable matrix_size : Z.

Lemma updateMatrix_body_frame (b : BLOCK) (k i j : Z) (m m' : matrix_t) :
  matrix_size <= k ->
  updateMatrix_body matrix_size b k m = Ok m' ->
  on_boundary matrix_size i j ->
  load m' (i * matrix_size + j) = load m (i * matrix_size + j).
Proof.
  intros Hk Hrun Hij. unfold updateMatrix_body in Hrun.
  apply bind_Ok in Hrun as (inner & Hinner & Hrun).
  destruct inner; [|by injection Hrun as <-].
  apply bind_Ok in Hrun as (v & _ & Hst).
  apply not_edge_true in Hinner as (_ & Hrem & _).
  apply (load_store_ne _ _ _ _ _ Hst).
  by apply interior_not_boundary.
Qed.

Lemma updateMatrix_block_frame (b : BLOCK) (i j : Z) (m m' : matrix_t) :
  matrix_size <= start_index b ->
  for_range (start_index b) (end_index b + 1)
    (updateMatrix_body matrix_size b) m = Ok m' ->
  on_boundary matrix_size i j ->
  load m' (i * matrix_size + j) = load m (i * matrix_size + j).
Proof.
  intros Hstart Hrun Hij.
  destruct (decide (start_index b <= end_index b + 1)) as [Hle|Hgt].
  2: { rewrite for_range_empty in Hrun by lia. by injection Hrun as <-. }
  apply (for_range_partial
    (fun _ m1 => load m1 (i * matrix_size + j) = load m (i * matrix_size + j))
    _ _ _ _ _ Hle Hrun); [done|].
  intros k m1 m2 Hk IH Hbody. rewrite <- IH.
  apply (updateMatrix_body_frame b k); [lia | done | done].
Qed.

(** The commit step writes no boundary cell. *)
Lemma updateMatrix_frame (thread_count : Z) (bs : blocks_t) (i j : Z)
    (m m' : matrix_t) :
  blocks_in_interior matrix_size bs ->
  updateMatrix matrix_size thread_count bs m = Ok m' ->
  on_boundary matrix_size i j ->
  load m' (i * matrix_size + j) = load m (i * matrix_size + j).
Proof.
  intros Hbs Hrun Hij. unfold updateMatrix in Hrun.
  destruct (decide (0 <= thread_count)) as [Hle|Hgt].
  2: { rewrite for_range_empty in Hrun by lia. by injection Hrun as <-. }
  apply (for_range_partial
    (fun _ m1 => load m1 (i * matrix_size + j) = load m (i * matrix_size + j))
    _ _ _ _ _ Hle Hrun); [done|].
  intros k m1 m2 Hk IH Hbody. rewrite <- IH.
  apply bind_Ok in Hbody as (b & Hb & Hbody).
  apply (updateMatrix_block_frame b); [|done|done].
  apply get_block_Ok, load_Ok in Hb as [_ Hb].
  by apply (Forall_lookup_1 _ _ _ _ Hbs Hb).
Qed.

Lemma updateMatrix_boundary (thread_count : Z) (bs : blocks_t)
    (m m' : matrix_t) :
  blocks_in_interior matrix_size bs ->
  updateMatrix matrix_size thread_count bs m = Ok m' ->
  boundary_fixed matrix_size m -> boundary_fixed matrix_size m'.
Proof.
  intros Hbs Hrun Hm i j Hi Hj Hedge.
  rewrite (updateMatrix_frame thread_count bs i j m m'); [|done|done|done].
  by apply Hm.
Qed.

End Commit.

(** ** Cycles *)

Section Cycles.

Variables matrix_size thread_count : Z.
Variable decimal_value : float.

Lemma cycle_Ok (st : state) (e : cycle_end) :
  cycle matrix_size thread_count decimal_value st = Ok e ->
  exists bs f,
    processBlocks matrix_size thread_count decimal_value (matrix st)
      (blocks st, value_change_flag st) = Ok (bs, f)
    /\ ((f = 0 /\ e = Break (mkState (matrix st) bs f))
        \/ (f <> 0 /\ exists m,
              updateMatrix matrix_size thread_count bs (matrix st) = Ok m
              /\ e = Continue (mkState m bs 0))).
Proof.
  unfold cycle. intros H.
  apply bind_Ok in H as ([bs f] & Hp & H). exists bs, f. split; [done|].
  case_bool_decide as Hf.
  - left. by injection H as <-.
  - right. split; [done|].
    apply bind_Ok in H as (m & Hm & H). exists m. by injection H as <-.
Qed.

Lemma cycle_step_invariant (st st' : state) :
  cycle_step matrix_size thread_count decimal_value st st' ->
  boundary_invariant matrix_size st -> boundary_invariant matrix_size st'.
Proof.
  intros Hstep [Hm Hbs].
  assert (exists e, cycle matrix_size thread_count decimal_value st = Ok e
                    /\ (e = Continue st' \/ e = Break st'))
    as (e & He & Hcase) by (destruct Hstep; eauto).
  apply cycle_Ok in He as (bs & f & Hp & He).
  assert (blocks_in_interior matrix_size bs) as Hbs'.
  { apply (processBlocks_ranges _ _ _
             (fun b => matrix_size <= start_index b) _ _ _ _ _) in Hp;
      [done | | done].
    intros b b' ->. done. }
  destruct He as [(_ & ->) | (_ & m & Hu & ->)].
  - destruct Hcase as [[=] | [= <-]]. by split.
  - destruct Hcase as [[= <-] | [=]]. split; [|done]. simpl.
    by apply (updateMatrix_boundary matrix_size thread_count bs (matrix st)).
Qed.

Lemma cycles_invariant (st st' : state) :
  rtc (cycle_step matrix_size thread_count decimal_value) st st' ->
  boundary_invariant matrix_size st -> boundary_invariant matrix_size st'.
Proof.
  induction 1 as [|st st1 st2 Hstep _ IH]; [done|].
  intros Hinv. apply IH. by apply (cycle_step_invariant st).
Qed.

(** The state in which the loop is left is reached by cycles. *)
Lemma relaxation_loop_cycles (fuel n n' : nat) (st st' : state) :
  relaxation_loop fuel matrix_size thread_count decimal_value n st
    = Ok (Some (n', st')) ->
  rtc (cycle_step matrix_size thread_count decimal_value) st st'.
Proof.
  revert n st. induction fuel as [|fuel IH]; intros n st H; simpl in H.
  - discriminate.
  - apply bind_Ok in H as (e & He & H). destruct e as [st1|st1].
    + injection H as _ <-. apply rtc_once. by right.
    + apply rtc_l with st1; [by left|]. by apply (IH (S n)).
Qed.

End Cycles.

(** With one thread [makeBlocks] makes one block, which spans the
    mutable interior. *)
Lemma makeBlocks_single_thread (junk : Z -> nat -> float) (size : Z) :
  let M := size * size - size * 2 in
  makeBlocks junk size 1 =
    if bool_decide (M = 0) then Fault DivisionByZero
    else Ok [Some (equal_block junk size M 0)].
Proof.
  intros M. unfold makeBlocks. fold M.
  assert (size * size - size - 1 = size + M - 1) as -> by lia. clearbody M.
  rewrite (bool_decide_eq_false_2 (1 = 0)) by done.
  cbn [mbind result_bind].
  replace (ceil_div M 1) with M by (unfold ceil_div; rewrite Z.div_1_r; lia).
  unfold c_rem, c_quot. case_bool_decide as HM; [done|].
  rewrite Z.rem_same by done. cbn [mbind result_bind].
  rewrite (Z.sub_0_r M), Z.quot_same by done. reflexivity.
Qed.

(** ** Coverage of the mutable interior *)

Lemma consecutive_app (lo mid hi : Z) (l1 l2 : list BLOCK) :
  consecutive lo l1 mid -> consecutive mid l2 hi ->
  consecutive lo (l1 ++ l2) hi.
Proof.
  revert lo. induction l1 as [|b l1 IH]; intros lo H1 H2; simpl in *.
  - by subst.
  - destruct H1 as (Hs & Hle & H1). auto.
Qed.

Lemma consecutive_le (lo hi : Z) (l : list BLOCK) :
  consecutive lo l hi -> lo <= hi.
Proof.
  revert lo. induction l as [|b l IH]; intros lo H; simpl in H.
  - lia.
  - destruct H as (_ & Hle & H). apply IH in H. lia.
Qed.

Lemma consecutive_lookup (lo hi : Z) (l : list BLOCK) (k : nat) (b : BLOCK) :
  consecutive lo l hi -> l !! k = Some b ->
  lo <= start_index b /\ start_index b <= end_index b /\ end_index b < hi.
Proof.
  revert lo k. induction l as [|b0 l IH]; intros lo k H Hk; [done|].
  destruct H as (Hs & Hle & H). pose proof (consecutive_le _ _ _ H) as Hhi.
  destruct k as [|k]; simpl in Hk.
  - injection Hk as ->. lia.
  - destruct (IH _ _ H Hk) as (? & ? & ?). lia.
Qed.

Lemma consecutive_ordered (lo hi : Z) (l : list BLOCK) (k1 k2 : nat)
    (b1 b2 : BLOCK) :
  consecutive lo l hi -> l !! k1 = Some b1 -> l !! k2 = Some b2 ->
  (k1 < k2)%nat -> end_index b1 < start_index b2.
Proof.
  revert lo k1 k2. induction l as [|b0 l IH]; intros lo k1 k2 H H1 H2 Hlt;
    [done|].
  destruct H as (Hs & Hle & H).
  destruct k2 as [|k2]; [lia|]. simpl in H2.
  destruct k1 as [|k1]; simpl in H1.
  - injection H1 as ->.
    destruct (consecutive_lookup _ _ _ _ _ H H2) as (? & _). lia.
  - apply (IH _ k1 k2 H H1 H2). lia.
Qed.

Lemma consecutive_cover (lo hi : Z) (l : list BLOCK) (i : Z) :
  consecutive lo l hi ->
  lo <= i < hi <-> exists b, b ∈ l /\ in_block b i.
Proof.
  revert lo. induction l as [|b0 l IH]; intros lo H; simpl in H.
  - split; [lia|]. intros (b & Hb & _). by apply elem_of_nil in Hb.
  - destruct H as (Hs & Hle & H). pose proof (consecutive_le _ _ _ H) as Hhi.
    specialize (IH _ H). split.
    + intros Hi. destruct (decide (i <= end_index b0)) as [Hin|Hout].
      * exists b0. split; [apply elem_of_cons; by left|]. unfold in_block. lia.
      * destruct (proj1 IH) as (b & Hb & Hib); [lia|].
        exists b. split; [apply elem_of_cons; by right | done].
    + intros (b & Hb & Hib). apply elem_of_cons in Hb as [-> | Hb].
      * unfold in_block in Hib. lia.
      * destruct (proj2 IH) as [? ?]; [by exists b|]. lia.
Qed.

Lemma consecutive_equal_blocks (junk : Z -> nat -> float) (size E a : Z)
    (n : nat) :
  1 <= E ->
  consecutive (size + E * a)
    (equal_block junk size E <$> seqZ a (Z.of_nat n))
    (size + E * (a + Z.of_nat n)).
Proof.
  intros HE. revert a. induction n as [|n IH]; intros a.
  - simpl. lia.
  - rewrite seqZ_cons by lia. rewrite fmap_cons.
    replace (Z.pred (Z.of_nat (S n))) with (Z.of_nat n) by lia.
    cbn [consecutive equal_block start_index end_index].
    split; [done|]. split; [lia|].
    replace (size + E * (a + 1) - 1 + 1) with (size + E * Z.succ a) by lia.
    replace (a + Z.of_nat (S n)) with (Z.succ a + Z.of_nat n) by lia.
    apply IH.
Qed.

(** The assigned blocks of [makeBlocks] follow one another from the first
    mutable index to the last. *)
Lemma makeBlocks_consecutive (junk : Z -> nat -> float) (size tc : Z) :
  3 <= size -> 1 <= tc ->
  exists bs, makeBlocks junk size tc = Ok bs
    /\ length bs = Z.to_nat tc
    /\ consecutive size (written bs) (size * size - size).
Proof.
  intros Hsize Htc.
  assert (1 <= size * size - size * 2) as HM by nia.
  destruct (makeBlocks_written junk size tc HM Htc) as (bs & Hbs & Hlen & Hw).
  destruct (partition_arith _ tc HM Htc) as (HE & HR & Hsum & Hcount & Hlast & _).
  exists bs. split; [done|]. split; [done|]. rewrite Hw.
  set (M := size * size - size * 2) in *.
  set (E := ceil_div M tc) in *. set (R := Z.rem M E) in *.
  set (count := Z.quot (M - R) E) in *.
  apply consecutive_app with (size + E * count).
  - pose proof (consecutive_equal_blocks junk size E 0 (Z.to_nat count) HE)
      as H.
    rewrite Z.mul_0_r, Z.add_0_r, Z.add_0_l, Z2Nat.id in H by lia. done.
  - case_bool_decide as HR0; simpl; lia.
Qed.

(** ** Room in the scratch buffers *)

Lemma for_loop_fault {St} (Q : fault -> Prop) (body : Z -> St -> result St)
    (n : nat) (i : Z) (s : St) (e : fault) :
  (forall k s e, body k s = Fault e -> Q e) ->
  for_loop n i body s = Fault e -> Q e.
Proof.
  intros Hbody. revert i s. induction n as [|n IH]; intros i s H; simpl in H.
  - discriminate.
  - destruct (body i s) as [s1|e1] eqn:Hb; cbn [mbind result_bind] in H.
    + by apply (IH (i + 1) s1).
    + injection H as <-. by apply (Hbody i s).
Qed.

Lemma load_fault {A} (a : list A) (i : Z) (e : fault) :
  load a i = Fault e -> e = OutOfBounds.
Proof.
  unfold load. case_bool_decide; [destruct (a !! Z.to_nat i)|]; congruence.
Qed.

Lemma store_fault {A} (a : list A) (i : Z) (v : A) (e : fault) :
  store a i v = Fault e -> e = OutOfBounds.
Proof. unfold store. case_bool_decide; congruence. Qed.

Lemma getSuroundingAverage_fault (size : Z) (m : matrix_t) (i : Z) (e : fault) :
  getSuroundingAverage size m i = Fault e -> e = OutOfBounds.
Proof.
  unfold getSuroundingAverage. intros H.
  repeat match type of H with
  | (load ?a ?i ≫= _) = Fault _ =>
      let E := fresh "E" in
      destruct (load a i) eqn:E; cbn [mbind result_bind] in H;
      [|injection H as <-; by apply load_fault in E]
  end.
  discriminate.
Qed.

(** With a non-zero grid size, the only fault of the relaxation step is
    an access out of bounds. *)
Lemma processBlock_fault (size : Z) (dv : float) (m : matrix_t) (f : Z)
    (b : BLOCK) (e : fault) :
  size <> 0 -> processBlock size dv m f b = Fault e -> e = OutOfBounds.
Proof.
  intros Hsize H. unfold processBlock in H.
  destruct (for_range _ _ _ _) as [[nv g]|e9] eqn:Hloop;
    cbn [mbind result_bind] in H; [discriminate|].
  injection H as <-. unfold for_range in Hloop.
  apply (for_loop_fault (fun e => e = OutOfBounds) _ _ _ _ _) in Hloop;
    [done|].
  intros k [nv g] e0 H. unfold processBlock_body, not_edge, c_rem in H.
  rewrite (bool_decide_eq_false_2 (size = 0)) in H by done.
  cbn [mbind result_bind] in H.
  destruct (bool_decide (Z.rem k size ≠ 0) && bool_decide (Z.rem (k + 1) size ≠ 0)).
  - destruct (getSuroundingAverage size m k) as [v|e1] eqn:Hv;
      cbn [mbind result_bind] in H;
      [|injection H as <-; by apply getSuroundingAverage_fault in Hv].
    destruct (load nv (k - start_index b)) as [old|e1] eqn:Hl;
      cbn [mbind result_bind] in H;
      [|injection H as <-; by apply load_fault in Hl].
    destruct (store nv (k - start_index b) v) as [nv'|e1] eqn:Hs;
      cbn [mbind result_bind] in H; [discriminate|].
    injection H as <-. by apply store_fault in Hs.
  - destruct (load m k) as [v|e1] eqn:Hv; cbn [mbind result_bind] in H;
      [|injection H as <-; by apply load_fault in Hv].
    destruct (store nv (k - start_index b) v) as [nv'|e1] eqn:Hs;
      cbn [mbind result_bind] in H; [discriminate|].
    injection H as <-. by apply store_fault in Hs.
Qed.

Lemma processBlock_length (size : Z) (dv : float) (m : matrix_t) (f f' : Z)
    (b b' : BLOCK) :
  processBlock size dv m f b = Ok (b', f') ->
  length (new_values b') = length (new_values b).
Proof.
  unfold processBlock. intros H.
  apply bind_Ok in H as ([nv' f1] & Hloop & H). injection H as <- <-. simpl.
  destruct (decide (start_index b <= end_index b + 1)) as [Hle|Hgt].
  2: { rewrite for_range_empty in Hloop by lia. by injection Hloop as <- _. }
  apply (for_range_partial
    (fun _ (s : scratch_t) => length s.1 = length (new_values b))
    _ _ _ _ _ Hle Hloop); [done|].
  intros j [nv1 g1] [nv2 g2] Hj IH Hbody.
  apply processBlock_body_Ok in Hbody as (_ & v & _ & _ & _ & _ & Hst & _).
  simpl in *. by rewrite (store_length _ _ _ _ Hst).
Qed.

(** [processBlock] returns only if the scratch buffer has a slot for
    every index of the block's range. *)
Lemma processBlock_needs_room (size : Z) (dv : float) (m : matrix_t)
    (f f' : Z) (b b' : BLOCK) :
  processBlock size dv m f b = Ok (b', f') ->
  start_index b <= end_index b ->
  end_index b - start_index b + 1 <= Z.of_nat (length (new_values b)).
Proof.
  intros H Hle. pose proof (processBlock_length _ _ _ _ _ _ _ H) as Hlen.
  apply processBlock_settles in H as (_ & _ & Hset).
  destruct (Hset (end_index b)) as (v & _ & Hl); [lia|].
  apply load_Ok_range in Hl. lia.
Qed.

(** * The claims of the specification *)

Lemma makeMatrix_3 (junk : nat -> float) : makeMatrix junk 3 = Ok grid3.
Proof. reflexivity. Qed.

(** C1 (the code departs from the claim).  On the 3 x 3 grid, with the
    threshold of precision 2, the slot of index 4 holds 1.0 and the newly
    computed average is 0.5: the absolute difference 0.5 is above the
    threshold, the relaxation step stores 0.5 and leaves the flag at 0. *)
Theorem processBlock_body_ignores_decrease :
  processBlock_body 3 precision2 grid3 3 4
      ([1%float; 1%float; 1%float], 0)
    = Ok ([1%float; 0.5%float; 1%float], 0)
  /\ (precision2 <? abs (0.5 - 1))%float = true
  /\ (precision2 <? 0.5 - 1)%float = false.
Proof. repeat split; vm_compute; reflexivity. Qed.

(** C2 (the code departs from the claim).  For a grid of size 4 cut for
    5 threads, with 8 mutable indexes, [makeBlocks] assigns four blocks of
    two indexes and never assigns the fifth entry of the array. *)
Theorem makeBlocks_leaves_entry_unassigned (junk : Z -> nat -> float) :
  makeBlocks junk 4 5 =
    Ok [Some (mkBLOCK 4 5 [junk 0 0%nat]);
        Some (mkBLOCK 6 7 [junk 1 0%nat]);
        Some (mkBLOCK 8 9 [junk 2 0%nat]);
        Some (mkBLOCK 10 11 [junk 3 0%nat]);
        None].
Proof. reflexivity. Qed.

(** C3 (the code departs from the claim).  For size 3, whatever the
    threshold and whatever the allocator left in memory, the first
    relaxation pass of [main] writes the slot of index 5 past the two
    cells of the scratch buffer: the run has no second cycle. *)
Theorem main_size3_out_of_bounds (fuel : nat) (junk_matrix : nat -> float)
    (junk_blocks : Z -> nat -> float) (decimal_value : float) :
  main (S fuel) junk_matrix junk_blocks 3 decimal_value = Fault OutOfBounds.
Proof. reflexivity. Qed.

(** C4 (the code departs from the claim).  For size 3 the block made by
    [makeBlocks] spans the indexes 3 to 5 and its scratch buffer has two
    cells, [end - start], so that [processBlock] faults on the slot of
    index 5. *)
Theorem scratch_buffer_one_slot_short (junk : Z -> nat -> float)
    (decimal_value : float) (flag : Z) :
  let b := mkBLOCK 3 5 [junk 0 0%nat; junk 0 1%nat] in
  makeBlocks junk 3 1 = Ok [Some b]
  /\ Z.of_nat (length (new_values b)) = end_index b - start_index b
  /\ processBlock 3 decimal_value grid3 flag b = Fault OutOfBounds.
Proof. repeat split. Qed.

(** C6 (the code departs from the claim).  The scratch cells of the block
    made by [makeBlocks] hold what the allocator left there.  With 0.5
    left in the slot of index 4 the first comparison flags nothing; with
    0.0 left there it flags a change. *)
Theorem scratch_buffer_not_zeroed (junk : Z -> nat -> float) :
  makeBlocks junk 3 1
    = Ok [Some (mkBLOCK 3 5 [junk 0 0%nat; junk 0 1%nat])]
  /\ processBlock_body 3 precision2 grid3 3 4
       ([0.5%float; 0.5%float], 0) = Ok ([0.5%float; 0.5%float], 0)
  /\ processBlock_body 3 precision2 grid3 3 4
       ([0%float; 0%float], 0) = Ok ([0%float; 0.5%float], 1).
Proof. repeat split. Qed.

(** C7, as stated, fails: for size 3 (3 mutable indexes) and 4 threads
    [makeBlocks] returns blocks, not an error. *)
Lemma makeBlocks_3_4_returns :
  makeBlocks (fun _ _ => 0%float) 3 4
    = Ok [Some (mkBLOCK 3 3 []); Some (mkBLOCK 4 4 []);
          Some (mkBLOCK 5 5 []); None].
Proof. reflexivity. Qed.

(** C7, amended.  When the thread count exceeds the number [M] of mutable
    indexes, [makeBlocks] does not fail: it returns, and the blocks it
    assigned are the [M] one-index ranges of the mutable interior, in
    increasing order. *)
Theorem makeBlocks_more_threads_than_cells (junk : Z -> nat -> float)
    (size tc : Z) :
  3 <= size -> size * size - size * 2 < tc ->
  exists bs, makeBlocks junk size tc = Ok bs
    /\ written bs = (fun i => mkBLOCK (size + i) (size + i) [])
                    <$> seqZ 0 (size * size - size * 2).
Proof.
  intros Hsize Htc.
  assert (1 <= size * size - size * 2) as HM by nia.
  destruct (makeBlocks_written junk size tc HM ltac:(lia))
    as (bs & Hbs & _ & Hw).
  destruct (partition_arith _ tc HM ltac:(lia)) as (_ & _ & _ & _ & _ & HE).
  exists bs. split; [done|]. rewrite Hw, HE by lia.
  rewrite Z.rem_1_r, Z.sub_0_r, Z.quot_1_r.
  rewrite (bool_decide_eq_false_2 (0 <> 0)) by (intros H; by apply H).
  rewrite app_nil_r.
  apply list_fmap_ext. intros _ i _. unfold equal_block.
  replace (size + 1 * (i + 1) - 1 - (size + 1 * i)) with 0 by lia.
  f_equal; lia.
Qed.

Lemma makeBlocks_more_threads_than_cells_witness :
  exists bs, makeBlocks (fun _ _ => 0%float) 3 4 = Ok bs
    /\ written bs = (fun i => mkBLOCK (3 + i) (3 + i) []) <$> seqZ 0 (3 * 3 - 3 * 2).
Proof.
  apply (makeBlocks_more_threads_than_cells (fun _ _ => 0%float) 3 4); lia.
Defined.

(** C8, as stated, fails: for size 2 [makeMatrix] returns a grid. *)
Lemma makeMatrix_2_returns :
  makeMatrix (fun _ => 0%float) 2
    = Ok [1%float; 1%float; 1%float; 0%float].
Proof. reflexivity. Qed.

(** C8, amended.  Grid creation does not fail for a size below 3:
    [makeMatrix] returns a grid of [size * size] cells, and every cell of a
    row and a column within the size holds its initial value, 1.0 in row 0
    and in column 0 and 0.0 elsewhere. *)
Theorem makeMatrix_below_3_returns (junk : nat -> float) (size : Z) :
  size < 3 ->
  exists m, makeMatrix junk size = Ok m
    /\ length m = Z.to_nat (size * size)
    /\ forall i j, 0 <= i < size -> 0 <= j < size ->
         load m (i * size + j) = Ok (initial_cell i j).
Proof.
  intros _. destruct (decide (0 <= size)) as [Hpos|Hneg].
  - by apply makeMatrix_spec.
  - exists (malloc junk (size * size)).
    split; [apply makeMatrix_negative; lia|].
    split; [apply malloc_length | intros; lia].
Qed.

Lemma makeMatrix_below_3_returns_witness :
  exists m, makeMatrix (fun _ => 0%float) 2 = Ok m
    /\ length m = Z.to_nat (2 * 2)
    /\ forall i j, 0 <= i < 2 -> 0 <= j < 2 ->
         load m (i * 2 + j) = Ok (initial_cell i j).
Proof. apply (makeMatrix_below_3_returns (fun _ => 0%float) 2). lia. Defined.

(** C10.  For a positive grid size and a grid of [size * size] cells, the
    four neighbours of every index of the mutable interior that is not on
    the left or right column lie within the grid, and
    [getSuroundingAverage] reads them without fault. *)
Theorem getSuroundingAverage_in_bounds (size : Z) (m : matrix_t) (i : Z) :
  0 < size ->
  length m = Z.to_nat (size * size) ->
  size <= i <= size * size - size - 1 ->
  Z.rem i size <> 0 -> Z.rem (i + 1) size <> 0 ->
  (0 <= i - size < size * size /\ 0 <= i + 1 < size * size
   /\ 0 <= i + size < size * size /\ 0 <= i - 1 < size * size)
  /\ exists v, getSuroundingAverage size m i = Ok v.
Proof.
  intros Hsize Hlen Hi _ _.
  assert (0 <= i - size < size * size /\ 0 <= i + 1 < size * size
          /\ 0 <= i + size < size * size /\ 0 <= i - 1 < size * size)
    as Hb by nia.
  split; [done|]. destruct Hb as (Ht & Hr & Hbo & Hl).
  unfold getSuroundingAverage.
  destruct (load_in_range m (i - size)) as [t ->]; [lia|].
  destruct (load_in_range m (i + 1)) as [r ->]; [lia|].
  destruct (load_in_range m (i + size)) as [bo ->]; [lia|].
  destruct (load_in_range m (i - 1)) as [l ->]; [lia|].
  cbn [mbind result_bind]. eauto.
Qed.

Lemma getSuroundingAverage_in_bounds_witness :
  (0 <= 4 - 3 < 3 * 3 /\ 0 <= 4 + 1 < 3 * 3
   /\ 0 <= 4 + 3 < 3 * 3 /\ 0 <= 4 - 1 < 3 * 3)
  /\ exists v, getSuroundingAverage 3 grid3 4 = Ok v.
Proof.
  apply (getSuroundingAverage_in_bounds 3 grid3 4);
    [lia | reflexivity | lia | discriminate | discriminate].
Defined.

(** C9.  Idempotence after convergence.  For a threshold that is not
    negative, as every [pow(0.1, p)] is: if a cycle from a state flags no
    change and leaves the loop, then the cycle run again from the state it
    left, on the same grid and with the scratch buffers the pass wrote,
    flags no change and leaves the same state. *)
Theorem relaxation_idempotent (matrix_size thread_count : Z)
    (decimal_value : float) (st st' : state) :
  (decimal_value <? 0)%float = false ->
  cycle matrix_size thread_count decimal_value st = Ok (Break st') ->
  cycle matrix_size thread_count decimal_value st' = Ok (Break st').
Proof.
  intros Hdv H.
  apply cycle_Ok in H as (bs & f & Hp & [(-> & [= ->]) | (_ & m & _ & [=])]).
  unfold cycle. simpl.
  rewrite (processBlocks_idempotent _ _ _ _ _ _ _ _ 0 Hdv Hp).
  reflexivity.
Qed.

Lemma relaxation_idempotent_witness :
  cycle 3 1 precision2 committed_state3 = Ok (Break committed_state3).
Proof.
  apply (relaxation_idempotent 3 1 precision2 committed_state3).
  - reflexivity.
  - vm_compute. reflexivity.
Defined.

(** * Further properties of the code *)

(** X1.  Partition.  For a grid size of at least 3 and at least one thread,
    [makeBlocks] returns, and the blocks it assigned are non-empty, cover
    exactly the mutable interior, and no index lies in two of them. *)
Theorem makeBlocks_partition (junk : Z -> nat -> float) (size tc : Z) :
  3 <= size -> 1 <= tc ->
  exists bs, makeBlocks junk size tc = Ok bs
    /\ (forall b, b ∈ written bs -> start_index b <= end_index b)
    /\ (forall i, size <= i <= size * size - size - 1
                  <-> exists b, b ∈ written bs /\ in_block b i)
    /\ (forall k1 k2 b1 b2 i,
          written bs !! k1 = Some b1 -> written bs !! k2 = Some b2 ->
          in_block b1 i -> in_block b2 i -> k1 = k2).
Proof.
  intros Hsize Htc.
  destruct (makeBlocks_consecutive junk size tc Hsize Htc)
    as (bs & Hbs & _ & Hcons).
  exists bs. split; [done|]. split; [|split].
  - intros b [k Hk]%list_elem_of_lookup.
    by destruct (consecutive_lookup _ _ _ _ _ Hcons Hk) as (_ & ? & _).
  - intros i. rewrite <- (consecutive_cover _ _ _ i Hcons). lia.
  - intros k1 k2 b1 b2 i H1 H2 Hi1 Hi2. unfold in_block in *.
    destruct (Nat.lt_trichotomy k1 k2) as [Hlt | [Heq | Hgt]]; [|done|].
    + pose proof (consecutive_ordered _ _ _ _ _ _ _ Hcons H1 H2 Hlt). lia.
    + pose proof (consecutive_ordered _ _ _ _ _ _ _ Hcons H2 H1 Hgt). lia.
Qed.

Lemma makeBlocks_partition_witness :
  exists bs, makeBlocks (fun _ _ => 0%float) 5 4 = Ok bs
    /\ (forall b, b ∈ written bs -> start_index b <= end_index b)
    /\ (forall i, 5 <= i <= 5 * 5 - 5 - 1
                  <-> exists b, b ∈ written bs /\ in_block b i)
    /\ (forall k1 k2 b1 b2 i,
          written bs !! k1 = Some b1 -> written bs !! k2 = Some b2 ->
          in_block b1 i -> in_block b2 i -> k1 = k2).
Proof. apply (makeBlocks_partition (fun _ _ => 0%float) 5 4); lia. Defined.

(** X2.  Room.  For a grid size of at least 3 and at least one thread, the
    scratch buffer of every block [makeBlocks] assigned has [end - start]
    cells, one fewer than the indexes of the block, and [processBlock]
    faults on it with an access out of bounds. *)
Theorem makeBlocks_scratch_too_short (junk : Z -> nat -> float)
    (size tc : Z) (bs : blocks_t) (b : BLOCK) :
  3 <= size -> 1 <= tc ->
  makeBlocks junk size tc = Ok bs -> b ∈ written bs ->
  Z.of_nat (length (new_values b)) = end_index b - start_index b
  /\ forall dv m f, processBlock size dv m f b = Fault OutOfBounds.
Proof.
  intros Hsize Htc Hbs Hb.
  assert (1 <= size * size - size * 2) as HM by nia.
  destruct (makeBlocks_consecutive junk size tc Hsize Htc)
    as (bs' & Hbs' & _ & Hcons).
  destruct (makeBlocks_written junk size tc HM Htc) as (bs'' & Hbs'' & _ & Hw).
  assert (bs' = bs) as -> by congruence.
  assert (bs'' = bs) as -> by congruence.
  assert (start_index b <= end_index b) as Hle.
  { apply list_elem_of_lookup in Hb as [k Hk].
    by destruct (consecutive_lookup _ _ _ _ _ Hcons Hk) as (_ & ? & _). }
  assert (Z.of_nat (length (new_values b)) = end_index b - start_index b)
    as Hlen.
  { rewrite Hw in Hb. apply elem_of_app in Hb as [Hb | Hb].
    - apply list_elem_of_fmap in Hb as (i & -> & _).
      unfold equal_block in *. simpl in *. rewrite malloc_length. lia.
    - case_bool_decide; [|by apply elem_of_nil in Hb].
      apply list_elem_of_singleton in Hb as ->.
      unfold last_block in *. simpl in *. rewrite malloc_length. lia. }
  split; [done|]. intros dv m f.
  destruct (processBlock size dv m f b) as [[b' f']|e] eqn:Hp.
  - apply processBlock_needs_room in Hp; [lia | done].
  - f_equal. apply (processBlock_fault size dv m f b); [lia | done].
Qed.

Lemma makeBlocks_scratch_too_short_witness :
  Z.of_nat (length (new_values (mkBLOCK 3 5 [0%float; 0%float]))) = 5 - 3
  /\ forall dv m f,
       processBlock 3 dv m f (mkBLOCK 3 5 [0%float; 0%float])
         = Fault OutOfBounds.
Proof.
  apply (makeBlocks_scratch_too_short (fun _ _ => 0%float) 3 1
           [Some (mkBLOCK 3 5 [0%float; 0%float])]).
  - lia.
  - lia.
  - reflexivity.
  - apply list_elem_of_singleton. reflexivity.
Defined.

(** X4.  The 3 x 3 scenario on a scratch buffer of three zeroed cells.  For a
    threshold from 0 up to, and not including, 0.5: the first cycle
    stores 0.5 for index 4, flags the change and commits; the second
    flags nothing; the loop is left in the second cycle with 0.5 at
    index 4 of the grid. *)
Theorem relaxation_loop_3_zeroed (fuel : nat) (dv : float) :
  (dv <? 0.5)%float = true -> (dv <? 0)%float = false ->
  cycle 3 1 dv roomy_state3 = Ok (Continue committed_state3)
  /\ cycle 3 1 dv committed_state3 = Ok (Break committed_state3)
  /\ relaxation_loop (S (S fuel)) 3 1 dv 0 roomy_state3
     = Ok (Some (2%nat, committed_state3)).
Proof.
  intros Hhalf Hzero.
  assert (cycle 3 1 dv roomy_state3 = Ok (Continue committed_state3)) as H1.
  { cbv -[PrimFloat.ltb]. rewrite Hhalf. reflexivity. }
  assert (cycle 3 1 dv committed_state3 = Ok (Break committed_state3)) as H2.
  { cbv -[PrimFloat.ltb]. rewrite Hzero. reflexivity. }
  split; [done|]. split; [done|].
  cbn [relaxation_loop]. rewrite H1. cbn [mbind result_bind].
  rewrite H2. reflexivity.
Qed.

Lemma relaxation_loop_3_zeroed_witness :
  cycle 3 1 precision2 roomy_state3 = Ok (Continue committed_state3)
  /\ cycle 3 1 precision2 committed_state3 = Ok (Break committed_state3)
  /\ relaxation_loop 2 3 1 precision2 0 roomy_state3
     = Ok (Some (2%nat, committed_state3)).
Proof.
  apply (relaxation_loop_3_zeroed 0 precision2); reflexivity.
Defined.

(** ** Grid creation, cell by cell *)

(** X5.  For a size that is not negative, [makeMatrix] returns the grid
    laid out by rows in which the cell of index [k] holds 1.0 when its
    row [k / size] or its column [k % size] is 0 and 0.0 otherwise: no
    cell keeps what the allocator left in it. *)
Theorem makeMatrix_row_major (junk : nat -> float) (size : Z) :
  0 <= size ->
  makeMatrix junk size =
    Ok ((fun k => initial_cell (k `div` size) (k `mod` size))
        <$> seqZ 0 (size * size)).
Proof.
  intros Hsize.
  destruct (makeMatrix_spec junk size Hsize) as (m & -> & Hlen & Hcells).
  f_equal. apply list_eq. intros n.
  destruct (decide (Z.of_nat n < size * size)) as [Hn|Hn].
  - assert (0 < size) as Hpos by nia.
    pose proof (Z.div_mod (Z.of_nat n) size ltac:(lia)) as Hdm.
    pose proof (Z.mod_pos_bound (Z.of_nat n) size Hpos) as Hmod.
    assert (0 <= Z.of_nat n `div` size < size) as Hdiv.
    { split; [apply Z.div_pos; lia | apply Z.div_lt_upper_bound; lia]. }
    specialize (Hcells _ _ Hdiv Hmod).
    replace (Z.of_nat n `div` size * size + Z.of_nat n `mod` size)
      with (Z.of_nat n) in Hcells by lia.
    apply load_Ok in Hcells as [_ Hcells]. rewrite Nat2Z.id in Hcells.
    rewrite Hcells, list_lookup_fmap, lookup_seqZ_lt by done. done.
  - rewrite (lookup_ge_None_2 m) by lia.
    rewrite list_lookup_fmap, lookup_seqZ_ge by lia. done.
Qed.

Lemma makeMatrix_row_major_witness :
  makeMatrix (fun _ => 7%float) 4 =
    Ok ((fun k => initial_cell (k `div` 4) (k `mod` 4)) <$> seqZ 0 (4 * 4)).
Proof. apply (makeMatrix_row_major (fun _ => 7%float) 4). lia. Defined.

(** ** Thread counts that divide the number of mutable indexes *)

(** X6.  When the thread count divides the number [M] of mutable
    indexes, [makeBlocks] assigns every entry of the array: entry [i] is
    the block of [M / thread_count] indexes that starts at
    [size + (M / thread_count) * i], with a scratch buffer of
    [M / thread_count - 1] cells. *)
Theorem makeBlocks_divisible (junk : Z -> nat -> float) (size tc : Z) :
  1 <= size * size - size * 2 -> 1 <= tc ->
  (size * size - size * 2) `mod` tc = 0 ->
  let E := (size * size - size * 2) `div` tc in
  makeBlocks junk size tc =
    Ok ((fun i => Some (mkBLOCK (size + E * i) (size + E * (i + 1) - 1)
                          (malloc (junk i) (E - 1))))
        <$> seqZ 0 tc).
Proof.
  intros HM Htc Hdiv E.
  pose proof (makeBlocks_spec junk size tc HM Htc) as Hspec.
  cbv zeta in Hspec. rewrite Hspec. clear Hspec.
  set (M := size * size - size * 2) in *.
  assert (M = tc * E) as HME.
  { pose proof (Z.div_mod M tc ltac:(lia)). unfold E. lia. }
  assert (1 <= E) as HE by nia.
  assert (ceil_div M tc = E) as ->.
  { unfold ceil_div. rewrite HME.
    replace (- (tc * E)) with ((- E) * tc) by lia.
    rewrite Z.div_mul by lia. lia. }
  assert (Z.rem M E = 0) as ->.
  { rewrite HME at 1. apply Z.rem_mul. lia. }
  rewrite (bool_decide_eq_false_2 (0 <> 0)) by (intros H; by apply H).
  rewrite Z.sub_0_r.
  assert (Z.quot M E = tc) as ->.
  { rewrite HME at 1. apply Z.quot_mul. lia. }
  rewrite Z.sub_diag. simpl. rewrite app_nil_r. f_equal.
  apply list_fmap_ext. intros _ i _. unfold equal_block.
  do 3 f_equal. lia.
Qed.

Lemma makeBlocks_divisible_witness :
  makeBlocks (fun _ _ => 0%float) 4 4 =
    Ok ((fun i => Some (mkBLOCK (4 + (4 * 4 - 4 * 2) `div` 4 * i)
                          (4 + (4 * 4 - 4 * 2) `div` 4 * (i + 1) - 1)
                          (malloc (fun _ => 0%float)
                             ((4 * 4 - 4 * 2) `div` 4 - 1))))
        <$> seqZ 0 4).
Proof.
  apply (makeBlocks_divisible (fun _ _ => 0%float) 4 4); [lia | lia | done].
Defined.

(** ** What a relaxation pass computes and when it flags *)

Section PassResult.

Variable matrix_size : Z.
Variable decimal_value : float.
Variable matrix : matrix_t.

Lemma cell_value_inner (k : Z) :
  not_edge matrix_size k = Ok true ->
  cell_value matrix_size matrix k = getSuroundingAverage matrix_size matrix k.
Proof. intros H. unfold cell_value. by rewrite H. Qed.

(** The flag after [processBlock]: unchanged when no index of the block
    passed the change test, 1 when one did. *)
Lemma processBlock_flag (f f' : Z) (b b' : BLOCK) :
  processBlock matrix_size decimal_value matrix f b = Ok (b', f') ->
  (f' = f
   /\ forall k, in_block b k -> not_edge matrix_size k = Ok true ->
        change_at matrix_size decimal_value matrix b k = Ok false)
  \/ (f' = 1
      /\ exists k, in_block b k /\ not_edge matrix_size k = Ok true
           /\ change_at matrix_size decimal_value matrix b k = Ok true).
Proof.
  unfold processBlock. intros H.
  apply bind_Ok in H as ([nv' f1] & Hloop & H). injection H as <- <-.
  destruct (decide (start_index b <= end_index b + 1)) as [Hle|Hgt].
  2: { rewrite for_range_empty in Hloop by lia. injection Hloop as <- <-.
       left. split; [done|]. unfold in_block. intros; lia. }
  assert ((forall k, end_index b + 1 <= k ->
             load nv' (k - start_index b)
             = load (new_values b) (k - start_index b))
          /\ ((f1 = f
               /\ forall k, start_index b <= k < end_index b + 1 ->
                    not_edge matrix_size k = Ok true ->
                    change_at matrix_size decimal_value matrix b k = Ok false)
              \/ (f1 = 1
                  /\ exists k, start_index b <= k < end_index b + 1
                       /\ not_edge matrix_size k = Ok true
                       /\ change_at matrix_size decimal_value matrix b k
                          = Ok true))) as [_ Hflag].
  { apply (for_range_partial
      (fun j (s : scratch_t) =>
         (forall k, j <= k ->
            load s.1 (k - start_index b)
            = load (new_values b) (k - start_index b))
         /\ ((s.2 = f
              /\ forall k, start_index b <= k < j ->
                   not_edge matrix_size k = Ok true ->
                   change_at matrix_size decimal_value matrix b k = Ok false)
             \/ (s.2 = 1
                 /\ exists k, start_index b <= k < j
                      /\ not_edge matrix_size k = Ok true
                      /\ change_at matrix_size decimal_value matrix b k
                         = Ok true)))
      _ _ _ _ _ Hle Hloop).
    - split; [done|]. left. split; [done | intros; lia].
    - intros j [nv1 g1] [nv2 g2] Hj [Hrest Hflag] Hbody. simpl in *.
      apply processBlock_body_Ok in Hbody
        as (inner & v & old & Hinner & Hv & Hold & Hst & ->).
      rewrite Hrest in Hold by lia.
      split.
      { intros k Hk. rewrite (load_store_ne _ _ _ _ _ Hst) by lia.
        apply Hrest. lia. }
      assert (inner = true ->
              change_at matrix_size decimal_value matrix b j
              = Ok (decimal_value <? v - old)%float) as Hchange.
      { intros ->. rewrite cell_value_inner in Hv by done.
        unfold change_at. rewrite Hv. cbn [mbind result_bind].
        rewrite Hold. done. }
      destruct Hflag as [[-> Hquiet] | [-> Hraised]].
      + destruct inner; simpl.
        * destruct (decimal_value <? v - old)%float eqn:Hcmp.
          -- right. split; [done|]. exists j.
             split; [lia|]. split; [done|]. by apply Hchange.
          -- left. split; [done|]. intros k Hk Hedge.
             destruct (decide (k = j)) as [->|Hne]; [by apply Hchange|].
             apply Hquiet; [lia | done].
        * left. split; [done|]. intros k Hk Hedge.
          destruct (decide (k = j)) as [->|Hne]; [congruence|].
          apply Hquiet; [lia | done].
      + right. split.
        { by destruct (inner && (decimal_value <? v - old)%float). }
        destruct Hraised as (k & Hk & Hedge & Hc). exists k.
        split; [lia | done]. }
  simpl in Hflag. unfold in_block.
  destruct Hflag as [[-> Hquiet] | [-> (k & Hk & Hedge & Hc)]].
  - left. split; [done|]. intros k Hk. apply Hquiet. lia.
  - right. split; [done|]. exists k. split; [lia | done].
Qed.

Variable thread_count : Z.

(** Entry by entry, the blocks after a pass are the results of
    [processBlock] on the blocks before it; the other entries of the
    array are as they were. *)
Lemma processBlocks_entries (bs bs' : blocks_t) (f f' : Z) :
  processBlocks matrix_size thread_count decimal_value matrix (bs, f)
    = Ok (bs', f') ->
  (forall i, 0 <= i < thread_count ->
     exists b b' g g', load bs i = Ok (Some b) /\ load bs' i = Ok (Some b')
       /\ processBlock matrix_size decimal_value matrix g b = Ok (b', g'))
  /\ (forall i, ~ 0 <= i < thread_count -> load bs' i = load bs i).
Proof.
  intros Hrun. unfold processBlocks in Hrun.
  destruct (decide (0 <= thread_count)) as [Hle|Hgt].
  2: { rewrite for_range_empty in Hrun by lia. injection Hrun as <- <-.
       split; [intros; lia | done]. }
  apply (for_range_partial
    (fun j (s : blocks_t * Z) =>
       (forall i, 0 <= i < j ->
          exists b b' g g', load bs i = Ok (Some b)
            /\ load s.1 i = Ok (Some b')
            /\ processBlock matrix_size decimal_value matrix g b
               = Ok (b', g'))
       /\ (forall i, ~ 0 <= i < j -> load s.1 i = load bs i))
    _ _ _ _ _ Hle Hrun).
  - split; [intros; lia | done].
  - intros j [bs1 f1] [bs2 f2] Hj [Hdone Hrest] Hstep. simpl in *.
    apply processBlocks_step in Hstep as (b & b' & Hb & Hp & Hst).
    rewrite Hrest in Hb by lia. split.
    + intros i Hi. destruct (decide (i = j)) as [->|Hne].
      * exists b, b', f1, f2. split; [done|].
        split; [by apply load_store_eq with bs1 | done].
      * destruct (Hdone i) as (bi & bi' & g & g' & ? & ? & ?); [lia|].
        exists bi, bi', g, g'. split; [done|]. split; [|done].
        by rewrite (load_store_ne _ _ _ _ _ Hst).
    + intros i Hi. rewrite (load_store_ne _ _ _ _ _ Hst) by lia.
      apply Hrest. lia.
Qed.

(** The flag after a pass: unchanged when no relaxed index passed the
    change test, 1 when one did. *)
Lemma processBlocks_flag (bs bs' : blocks_t) (f f' : Z) :
  processBlocks matrix_size thread_count decimal_value matrix (bs, f)
    = Ok (bs', f') ->
  (f' = f
   /\ forall i b k, 0 <= i < thread_count -> load bs i = Ok (Some b) ->
        in_block b k -> not_edge matrix_size k = Ok true ->
        change_at matrix_size decimal_value matrix b k = Ok false)
  \/ (f' = 1
      /\ exists i b k, 0 <= i < thread_count /\ load bs i = Ok (Some b)
           /\ in_block b k /\ not_edge matrix_size k = Ok true
           /\ change_at matrix_size decimal_value matrix b k = Ok true).
Proof.
  intros Hrun. unfold processBlocks in Hrun.
  destruct (decide (0 <= thread_count)) as [Hle|Hgt].
  2: { rewrite for_range_empty in Hrun by lia. injection Hrun as <- <-.
       left. split; [done | intros; lia]. }
  assert ((forall i, ~ 0 <= i < thread_count -> load bs' i = load bs i)
    /\ ((f' = f
         /\ forall i b k, 0 <= i < thread_count -> load bs i = Ok (Some b) ->
              in_block b k -> not_edge matrix_size k = Ok true ->
              change_at matrix_size decimal_value matrix b k = Ok false)
        \/ (f' = 1
            /\ exists i b k, 0 <= i < thread_count /\ load bs i = Ok (Some b)
                 /\ in_block b k /\ not_edge matrix_size k = Ok true
                 /\ change_at matrix_size decimal_value matrix b k = Ok true)))
    as [_ H]; [|done].
  apply (for_range_partial
    (fun j (s : blocks_t * Z) =>
       (forall i, ~ 0 <= i < j -> load s.1 i = load bs i)
       /\ ((s.2 = f
            /\ forall i b k, 0 <= i < j -> load bs i = Ok (Some b) ->
                 in_block b k -> not_edge matrix_size k = Ok true ->
                 change_at matrix_size decimal_value matrix b k = Ok false)
           \/ (s.2 = 1
               /\ exists i b k, 0 <= i < j /\ load bs i = Ok (Some b)
                    /\ in_block b k /\ not_edge matrix_size k = Ok true
                    /\ change_at matrix_size decimal_value matrix b k
                       = Ok true)))
    _ _ _ _ _ Hle Hrun).
  - split; [done|]. left. split; [done | intros; lia].
  - intros j [bs1 f1] [bs2 f2] Hj [Hrest Hflag] Hstep. simpl in *.
    apply processBlocks_step in Hstep as (b & b' & Hb & Hp & Hst).
    rewrite Hrest in Hb by lia. split.
    { intros i Hi. rewrite (load_store_ne _ _ _ _ _ Hst) by lia.
      apply Hrest. lia. }
    apply processBlock_flag in Hp.
    destruct Hflag as [[-> Hquiet] | [-> Hraised]].
    + destruct Hp as [[-> Hq] | [-> (k & Hk & Hedge & Hc)]].
      * left. split; [done|]. intros i bi k Hi Hbi Hk Hedge.
        destruct (decide (i = j)) as [->|Hne].
        -- assert (bi = b) as -> by congruence. by apply Hq.
        -- apply (Hquiet i); [lia | done | done | done].
      * right. split; [done|]. exists j, b, k.
        split; [lia | done].
    + right. split; [by destruct Hp as [[-> _] | [-> _]]|].
      destruct Hraised as (i & bi & k & Hi & Hrest').
      exists i, bi, k. split; [lia | done].
Qed.

End PassResult.

(** ** What the commit step writes *)

Section CommitResult.

Variables matrix_size thread_count : Z.

(** [old] is the grid the pass read, [bs] the blocks the pass left. *)
Variable old : matrix_t.
Variable bs : blocks_t.

Hypothesis slots_settled :
  forall i b k, 0 <= i < thread_count -> load bs i = Ok (Some b) ->
    in_block b k -> settled matrix_size old (start_index b) (new_values b) k.

Lemma updateMatrix_body_committed (j : Z) (b : BLOCK) (m_i : Z)
    (m m' : matrix_t) :
  0 <= j < thread_count -> load bs j = Ok (Some b) ->
  start_index b <= m_i <= end_index b ->
  updateMatrix_body matrix_size b m_i m = Ok m' ->
  committed_upto matrix_size old bs j b m_i m ->
  committed_upto matrix_size old bs j b (m_i + 1) m'.
Proof.
  intros Hj Hb Hm_i Hbody Hinv k. unfold updateMatrix_body in Hbody.
  apply bind_Ok in Hbody as (inner & Hinner & Hbody).
  destruct (Hinv k) as [Hin Hout]. destruct inner.
  - apply bind_Ok in Hbody as (v & Hv & Hst).
    destruct (slots_settled j b m_i Hj Hb Hm_i) as (w & Hw & Hslot).
    assert (w = v) as -> by congruence.
    rewrite cell_value_inner in Hw by done.
    destruct (decide (k = m_i)) as [->|Hne].
    + split.
      * intros _ _. rewrite Hw. by apply load_store_eq with m.
      * intros Hnot. exfalso. apply Hnot. split; [done|]. right. lia.
    + rewrite (load_store_ne _ _ _ _ _ Hst) by lia. split.
      * intros Hedge Hcov. apply Hin; [done|].
        destruct Hcov as [Hcov|Hcov]; [by left | right; lia].
      * intros Hnot. apply Hout. intros [Hedge Hcov]. apply Hnot.
        split; [done|]. destruct Hcov as [Hcov|Hcov]; [by left | right; lia].
  - injection Hbody as <-. split.
    + intros Hedge Hcov. apply Hin; [done|].
      destruct Hcov as [Hcov|Hcov]; [by left|].
      destruct (decide (k = m_i)) as [->|Hne]; [congruence | right; lia].
    + intros Hnot. apply Hout. intros [Hedge Hcov]. apply Hnot.
      split; [done|]. destruct Hcov as [Hcov|Hcov]; [by left | right; lia].
Qed.

(** After the commit step every relaxed index holds the average of its
    four neighbours on the old grid, and every other cell is as it was. *)
Lemma updateMatrix_committed (m' : matrix_t) :
  updateMatrix matrix_size thread_count bs old = Ok m' ->
  forall k,
    (relaxed matrix_size thread_count bs k ->
     load m' k = getSuroundingAverage matrix_size old k)
    /\ (~ relaxed matrix_size thread_count bs k -> load m' k = load old k).
Proof.
  intros Hrun. unfold updateMatrix in Hrun.
  destruct (decide (0 <= thread_count)) as [Hle|Hgt].
  2: { rewrite for_range_empty in Hrun by lia. injection Hrun as <-.
       intros k. split; [|done]. intros (_ & i & b & Hi & _). lia. }
  assert (forall k,
    (relaxed matrix_size thread_count bs k ->
     load m' k = getSuroundingAverage matrix_size old k)
    /\ (~ relaxed matrix_size thread_count bs k -> load m' k = load old k))
    as H; [|done].
  apply (for_range_partial
    (fun j m => forall k,
       (relaxed matrix_size j bs k ->
        load m k = getSuroundingAverage matrix_size old k)
       /\ (~ relaxed matrix_size j bs k -> load m k = load old k))
    _ _ _ _ _ Hle Hrun).
  - intros k. split; [|done]. intros (_ & i & b & Hi & _). lia.
  - intros j m1 m2 Hj Hinv Hstep.
    apply bind_Ok in Hstep as (b & Hb & Hloop). apply get_block_Ok in Hb.
    assert (committed_upto matrix_size old bs j b (start_index b) m1) as Hpre.
    { intros k. destruct (Hinv k) as [Hin Hout]. split.
      - intros Hedge [Hcov|Hcov]; [|lia]. apply Hin. by split.
      - intros Hnot. apply Hout. intros [Hedge Hcov]. apply Hnot.
        split; [done | by left]. }
    assert (committed_upto matrix_size old bs j b
              (Z.max (start_index b) (end_index b + 1)) m2) as Hpost.
    { destruct (decide (start_index b <= end_index b + 1)) as [Hle'|Hgt'].
      - rewrite Z.max_r by lia.
        apply (for_range_partial (committed_upto matrix_size old bs j b)
                 _ _ _ _ _ Hle' Hloop); [done|].
        intros m_i m3 m4 Hm_i Hc Hbody.
        apply (updateMatrix_body_committed j b m_i m3);
          [lia | done | lia | done | done].
      - rewrite for_range_empty in Hloop by lia. injection Hloop as <-.
        by rewrite Z.max_l by lia. }
    intros k. destruct (Hpost k) as [Hin Hout]. split.
    + intros (Hedge & i & b' & Hi & Hb' & Hk). apply Hin; [done|].
      destruct (decide (i = j)) as [->|Hne].
      * assert (b' = b) as -> by congruence. right.
        unfold in_block in Hk. lia.
      * left. exists i, b'. split; [lia | done].
    + intros Hnot. apply Hout. intros [Hedge Hcov]. apply Hnot.
      split; [done|]. destruct Hcov as [(i & b' & Hi & Hb' & Hk) | Hk].
      * exists i, b'. split; [lia | done].
      * exists j, b. split; [lia|]. split; [done|]. unfold in_block. lia.
Qed.

End CommitResult.

(** ** Passes, commits and the exit of the loop *)

Section CycleResult.

Variables matrix_size thread_count : Z.
Variable decimal_value : float.

(** The blocks a pass leaves: ranges kept, slots settled on the grid the
    pass read. *)
Lemma processBlocks_settles (m : matrix_t) (bs bs' : blocks_t) (f f' : Z) :
  processBlocks matrix_size thread_count decimal_value m (bs, f)
    = Ok (bs', f') ->
  forall i, 0 <= i < thread_count ->
    exists b b', load bs i = Ok (Some b) /\ load bs' i = Ok (Some b')
      /\ start_index b' = start_index b /\ end_index b' = end_index b
      /\ length (new_values b') = length (new_values b)
      /\ forall k, in_block b k ->
           settled matrix_size m (start_index b) (new_values b') k.
Proof.
  intros [Hentries _]%processBlocks_entries i Hi.
  destruct (Hentries i Hi) as (b & b' & g & g' & Hb & Hb' & Hp).
  exists b, b'. split; [done|]. split; [done|].
  pose proof (processBlock_length _ _ _ _ _ _ _ Hp) as Hlen.
  apply processBlock_settles in Hp as (Hs & He & Hset). done.
Qed.

Lemma relaxed_after_pass (m : matrix_t) (bs bs' : blocks_t) (f f' : Z)
    (k : Z) :
  processBlocks matrix_size thread_count decimal_value m (bs, f)
    = Ok (bs', f') ->
  relaxed matrix_size thread_count bs k
  <-> relaxed matrix_size thread_count bs' k.
Proof.
  intros Hrun. unfold relaxed, in_block.
  split; intros (Hedge & i & b & Hi & Hb & Hk); (split; [done|]);
    destruct (processBlocks_settles _ _ _ _ _ Hrun i Hi)
      as (b0 & b1 & Hb0 & Hb1 & Hs & He & _).
  - assert (b0 = b) as -> by congruence. exists i, b1.
    split; [done|]. split; [done | lia].
  - assert (b1 = b) as -> by congruence. exists i, b0.
    split; [done|]. split; [done | lia].
Qed.

(** A committing cycle followed by a cycle that leaves the loop: on the
    grid left, no relaxed index has an average of its neighbours that
    exceeds the cell by more than the threshold. *)
Lemma commit_then_break (st0 st1 st2 : state) (k : Z) :
  cycle matrix_size thread_count decimal_value st0 = Ok (Continue st1) ->
  cycle matrix_size thread_count decimal_value st1 = Ok (Break st2) ->
  relaxed matrix_size thread_count (blocks st2) k ->
  exists v g,
    getSuroundingAverage matrix_size (matrix st2) k = Ok v
    /\ load (matrix st2) k = Ok g
    /\ (decimal_value <? v - g)%float = false.
Proof.
  intros H0 H1 Hk.
  apply cycle_Ok in H0
    as (bs1 & f1 & Hp0 & [(_ & [=]) | (_ & m1 & Hu & [= ->])]).
  apply cycle_Ok in H1
    as (bs2 & f2 & Hp1 & [(-> & [= ->]) | (_ & m2 & _ & [=])]).
  simpl in *.
  apply (relaxed_after_pass _ _ _ _ _ _ Hp1) in Hk.
  pose proof Hk as (Hedge & i & b1 & Hi & Hb1 & Hin).
  destruct (processBlocks_settles _ _ _ _ _ Hp0 i Hi)
    as (b0 & b1' & Hb0 & Hb1' & Hs & He & _ & Hset).
  assert (b1' = b1) as -> by congruence.
  destruct (Hset k) as (w & Hw & Hslot); [unfold in_block in *; lia|].
  rewrite cell_value_inner in Hw by done. rewrite <- Hs in Hslot.
  assert (load m1 k = Ok w) as Hg.
  { rewrite <- Hw.
    apply (updateMatrix_committed matrix_size thread_count (matrix st0) bs1);
      [|done|done].
    intros i' b' k' Hi' Hb' Hk'.
    destruct (processBlocks_settles _ _ _ _ _ Hp0 i' Hi')
      as (c0 & c1 & Hc0 & Hc1 & Hs' & He' & _ & Hset').
    assert (c1 = b') as -> by congruence.
    rewrite Hs'. apply Hset'. unfold in_block in *. lia. }
  destruct (processBlocks_flag _ _ _ _ _ _ _ _ Hp1)
    as [[_ Hquiet] | [[=] _]].
  specialize (Hquiet i b1 k Hi Hb1 Hin Hedge). unfold change_at in Hquiet.
  apply bind_Ok in Hquiet as (v & Hv & Hquiet).
  apply bind_Ok in Hquiet as (o & Ho & [= Hcmp]).
  assert (o = w) as -> by congruence.
  exists v, w. done.
Qed.

(** How the loop is left: in its first cycle, or by a committing cycle
    followed by a cycle that flags nothing. *)
Lemma relaxation_loop_last_cycles (fuel n n' : nat) (st st' : state) :
  relaxation_loop fuel matrix_size thread_count decimal_value n st
    = Ok (Some (n', st')) ->
  (n' = S n
   /\ cycle matrix_size thread_count decimal_value st = Ok (Break st'))
  \/ ((S n < n')%nat
      /\ exists sta stb,
           cycle matrix_size thread_count decimal_value sta
             = Ok (Continue stb)
           /\ cycle matrix_size thread_count decimal_value stb
              = Ok (Break st')).
Proof.
  revert n st. induction fuel as [|fuel IH]; intros n st H; simpl in H.
  - discriminate.
  - apply bind_Ok in H as (e & He & H). destruct e as [st1|st1].
    + injection H as <- <-. by left.
    + right. destruct (IH _ _ H) as [[-> Hb] | [Hlt (sta & stb & Ha & Hb)]].
      * split; [lia|]. by exists st, st1.
      * split; [lia|]. by exists sta, stb.
Qed.

End CycleResult.

(** X7.  The result of a pass.  After [processBlock] has run over the
    blocks, every entry keeps its range and the length of its scratch
    buffer, and the slot of every index of its range holds the average of
    the four neighbours on the grid, or the cell itself when the index is
    on the left or right column. *)
Theorem processBlocks_relaxes (matrix_size thread_count : Z)
    (decimal_value : float) (m : matrix_t) (bs bs' : blocks_t) (f f' : Z)
    (i : Z) (b : BLOCK) :
  processBlocks matrix_size thread_count decimal_value m (bs, f)
    = Ok (bs', f') ->
  0 <= i < thread_count -> load bs i = Ok (Some b) ->
  exists b', load bs' i = Ok (Some b')
    /\ start_index b' = start_index b /\ end_index b' = end_index b
    /\ length (new_values b') = length (new_values b)
    /\ forall k, in_block b k ->
         load (new_values b') (k - start_index b)
         = (inner ← not_edge matrix_size k;
            if inner : bool then getSuroundingAverage matrix_size m k
            else load m k).
Proof.
  intros Hrun Hi Hb.
  destruct (processBlocks_settles _ _ _ _ _ _ _ _ Hrun i Hi)
    as (b0 & b' & Hb0 & Hb' & Hs & He & Hlen & Hset).
  assert (b0 = b) as -> by congruence.
  exists b'. split; [done|]. split; [done|]. split; [done|]. split; [done|].
  intros k Hk. destruct (Hset k Hk) as (v & Hv & Hslot).
  by rewrite Hslot, <- Hv.
Qed.

Lemma processBlocks_relaxes_witness :
  exists b', load (blocks committed_state3) 0 = Ok (Some b')
    /\ start_index b' = 3 /\ end_index b' = 5
    /\ length (new_values b') = 3%nat
    /\ forall k, in_block (mkBLOCK 3 5 [0%float; 0%float; 0%float]) k ->
         load (new_values b') (k - 3)
         = (inner ← not_edge 3 k;
            if inner : bool then getSuroundingAverage 3 grid3 k
            else load grid3 k).
Proof.
  apply (processBlocks_relaxes 3 1 precision2 grid3 (blocks roomy_state3)
           (blocks committed_state3) 0 1 0
           (mkBLOCK 3 5 [0%float; 0%float; 0%float])).
  - vm_compute. reflexivity.
  - lia.
  - reflexivity.
Defined.

(** X8.  When the loop is left.  A cycle entered with the flag at 0
    leaves the loop exactly when no relaxed index passes the change test
    (average of the neighbours minus previous slot content above the
    threshold), and commits exactly when one does. *)
Theorem cycle_decision (matrix_size thread_count : Z)
    (decimal_value : float) (st : state) (e : cycle_end) :
  value_change_flag st = 0 ->
  cycle matrix_size thread_count decimal_value st = Ok e ->
  ((exists st', e = Break st')
   /\ forall i b k, 0 <= i < thread_count ->
        load (blocks st) i = Ok (Some b) -> in_block b k ->
        not_edge matrix_size k = Ok true ->
        change_at matrix_size decimal_value (matrix st) b k = Ok false)
  \/ ((exists st', e = Continue st')
      /\ exists i b k, 0 <= i < thread_count
           /\ load (blocks st) i = Ok (Some b) /\ in_block b k
           /\ not_edge matrix_size k = Ok true
           /\ change_at matrix_size decimal_value (matrix st) b k = Ok true).
Proof.
  intros Hf H.
  apply cycle_Ok in H as (bs & f & Hp & He). rewrite Hf in Hp.
  destruct (processBlocks_flag _ _ _ _ _ _ _ _ Hp)
    as [[-> Hquiet] | [-> Hraised]].
  - left. destruct He as [(_ & ->) | (Hne & _)]; [|done].
    split; [eauto | done].
  - right. destruct He as [([=] & _) | (_ & m & _ & ->)].
    split; [eauto | done].
Qed.

Lemma cycle_decision_witness :
  ((exists st', Continue committed_state3 = Break st')
   /\ forall i b k, 0 <= i < 1 ->
        load (blocks roomy_state3) i = Ok (Some b) -> in_block b k ->
        not_edge 3 k = Ok true ->
        change_at 3 precision2 (matrix roomy_state3) b k = Ok false)
  \/ ((exists st', Continue committed_state3 = Continue st')
      /\ exists i b k, 0 <= i < 1
           /\ load (blocks roomy_state3) i = Ok (Some b) /\ in_block b k
           /\ not_edge 3 k = Ok true
           /\ change_at 3 precision2 (matrix roomy_state3) b k = Ok true).
Proof.
  apply (cycle_decision 3 1 precision2 roomy_state3).
  - reflexivity.
  - vm_compute. reflexivity.
Defined.

(** X9.  A committing cycle is a Jacobi step.  After a cycle that
    commits, every index that is in the range of a block and not on the
    left or right column holds the average of its four neighbours on the
    grid before the cycle, and every other cell of the grid is as it was
    before the cycle. *)
Theorem cycle_commits_averages (matrix_size thread_count : Z)
    (decimal_value : float) (st st' : state) (k : Z) :
  cycle matrix_size thread_count decimal_value st = Ok (Continue st') ->
  (relaxed matrix_size thread_count (blocks st) k ->
   load (matrix st') k = getSuroundingAverage matrix_size (matrix st) k)
  /\ (~ relaxed matrix_size thread_count (blocks st) k ->
      load (matrix st') k = load (matrix st) k).
Proof.
  intros H.
  apply cycle_Ok in H as (bs & f & Hp & [(_ & [=]) | (_ & m & Hu & [= ->])]).
  simpl.
  assert (forall i b k, 0 <= i < thread_count -> load bs i = Ok (Some b) ->
            in_block b k ->
            settled matrix_size (matrix st) (start_index b) (new_values b) k)
    as Hset.
  { intros i b k' Hi Hb Hk'.
    destruct (processBlocks_settles _ _ _ _ _ _ _ _ Hp i Hi)
      as (c0 & c1 & Hc0 & Hc1 & Hs & He & _ & Hset).
    assert (c1 = b) as -> by congruence.
    rewrite Hs. apply Hset. unfold in_block in *. lia. }
  destruct (updateMatrix_committed matrix_size thread_count (matrix st) bs
              Hset m Hu k) as [Hin Hout].
  pose proof (relaxed_after_pass _ _ _ _ _ _ _ _ k Hp) as Hiff.
  split.
  - intros Hk. apply Hin. by apply Hiff.
  - intros Hk. apply Hout. intros Hk'. apply Hk. by apply Hiff.
Qed.

Lemma cycle_commits_averages_witness :
  load (matrix committed_state3) 4
  = getSuroundingAverage 3 (matrix roomy_state3) 4.
Proof.
  apply (proj1 (cycle_commits_averages 3 1 precision2 roomy_state3
                  committed_state3 4 ltac:(vm_compute; reflexivity))).
  split; [reflexivity|].
  exists 0, (mkBLOCK 3 5 [0%float; 0%float; 0%float]).
  split; [lia|]. split; [reflexivity|]. unfold in_block. simpl. lia.
Defined.

(** X10.  What the loop guarantees when it is left after at least one
    commit.  If the loop is left in its second cycle or later, then on the
    final grid every index that is in the range of a block and not on
    the left or right column has an average of its four neighbours that
    does not exceed the cell by more than the threshold. *)
Theorem relaxation_loop_exit_criterion (fuel : nat)
    (matrix_size thread_count : Z) (decimal_value : float)
    (st st' : state) (n : nat) (k : Z) :
  relaxation_loop fuel matrix_size thread_count decimal_value 0 st
    = Ok (Some (n, st')) ->
  (2 <= n)%nat ->
  relaxed matrix_size thread_count (blocks st') k ->
  exists v g,
    getSuroundingAverage matrix_size (matrix st') k = Ok v
    /\ load (matrix st') k = Ok g
    /\ (decimal_value <? v - g)%float = false.
Proof.
  intros Hloop Hn Hk.
  apply relaxation_loop_last_cycles in Hloop
    as [[-> _] | [_ (sta & stb & Ha & Hb)]]; [lia|].
  by apply (commit_then_break matrix_size thread_count decimal_value
              sta stb st').
Qed.

Lemma relaxation_loop_exit_criterion_witness :
  exists v g,
    getSuroundingAverage 3 (matrix committed_state3) 4 = Ok v
    /\ load (matrix committed_state3) 4 = Ok g
    /\ (precision2 <? v - g)%float = false.
Proof.
  apply (relaxation_loop_exit_criterion 2 3 1 precision2 roomy_state3
           committed_state3 2 4).
  - vm_compute. reflexivity.
  - lia.
  - split; [reflexivity|].
    exists 0, (mkBLOCK 3 5 [1%float; 0.5%float; 0%float]).
    split; [lia|]. split; [reflexivity|]. unfold in_block. simpl. lia.
Defined.

(** ** The outcome of [main] by grid size *)

(** On a block whose scratch buffer has fewer cells than its range has
    indexes, [processBlock] ends in an access out of bounds. *)
Lemma processBlock_short_buffer (size : Z) (dv : float) (m : matrix_t)
    (f : Z) (b : BLOCK) :
  size <> 0 -> start_index b <= end_index b ->
  Z.of_nat (length (new_values b)) <= end_index b - start_index b ->
  processBlock size dv m f b = Fault OutOfBounds.
Proof.
  intros Hsize Hle Hlen.
  destruct (processBlock size dv m f b) as [[b' f']|e] eqn:Hp.
  - apply processBlock_needs_room in Hp; [lia | done].
  - f_equal. by apply (processBlock_fault size dv m f b).
Qed.

Lemma cycle_single_block_fault (size : Z) (dv : float) (m : matrix_t)
    (b : BLOCK) (e : fault) :
  processBlock size dv m 0 b = Fault e ->
  cycle size 1 dv (mkState m [Some b] 0) = Fault e.
Proof.
  intros Hp. unfold cycle, processBlocks, for_range. simpl.
  unfold get_block, load. simpl. by rewrite Hp.
Qed.

(** X11.  For every grid size with at least one mutable index (a size of
    at least 3, or a negative one), [main] ends in an access out of
    bounds during its first relaxation pass, whatever the threshold and
    whatever the allocator left in memory: the scratch buffer of its
    single block is one cell short. *)
Theorem main_out_of_bounds (fuel : nat) (junk_matrix : nat -> float)
    (junk_blocks : Z -> nat -> float) (size : Z) (decimal_value : float) :
  1 <= size * size - size * 2 ->
  main (S fuel) junk_matrix junk_blocks size decimal_value
    = Fault OutOfBounds.
Proof.
  intros HM. unfold main.
  assert (exists m, makeMatrix junk_matrix size = Ok m) as [m ->].
  { destruct (decide (0 <= size)) as [Hpos|Hneg].
    - destruct (makeMatrix_spec junk_matrix size Hpos) as (m & Hm & _).
      eauto.
    - rewrite makeMatrix_negative by lia. eauto. }
  cbn [mbind result_bind]. rewrite makeBlocks_single_thread.
  rewrite bool_decide_eq_false_2 by lia.
  cbn [mbind result_bind relaxation_loop].
  rewrite (cycle_single_block_fault _ _ _ _ OutOfBounds); [done|].
  apply processBlock_short_buffer.
  - intros ->. lia.
  - unfold equal_block. simpl. lia.
  - unfold equal_block. simpl. rewrite malloc_length. lia.
Qed.

Lemma main_out_of_bounds_witness :
  main 1 (fun _ => 0%float) (fun _ _ => 0%float) 5 precision2
    = Fault OutOfBounds.
Proof.
  apply (main_out_of_bounds 0 (fun _ => 0%float) (fun _ _ => 0%float) 5
           precision2).
  lia.
Defined.

(** X12.  The sizes without a mutable index.  For size 0 and size 2 the
    number of mutable indexes is 0 and [main] ends in [makeBlocks] with a
    division by zero, before any relaxation.  For size 1 the block made
    has an empty range: the first pass flags nothing and the loop is left
    in its first cycle, with the grid of one cell holding 1.0. *)
Theorem main_small_sizes (fuel : nat) (junk_matrix : nat -> float)
    (junk_blocks : Z -> nat -> float) (decimal_value : float) :
  main fuel junk_matrix junk_blocks 0 decimal_value = Fault DivisionByZero
  /\ main fuel junk_matrix junk_blocks 2 decimal_value
     = Fault DivisionByZero
  /\ main (S fuel) junk_matrix junk_blocks 1 decimal_value
     = Ok (Some (1%nat, mkState [1%float] [Some (mkBLOCK 1 (-1) [])] 0)).
Proof. repeat split. Qed.

(** ** Timing *)

Lemma binary_round_sign (m : positive) (e : Z) :
  SpecFloat.binary_round prec emax false m e <> S754_zero true.
Proof.
  unfold SpecFloat.binary_round.
  destruct (SpecFloat.shl_align _ _ _) as [mz ez].
  unfold SpecFloat.binary_round_aux.
  destruct (SpecFloat.shr_fexp _ _ _ _ _) as [mrs e'].
  destruct (SpecFloat.shr_fexp _ _ _ _ _) as [mrs' e''].
  destruct (SpecFloat.shr_m mrs'); try discriminate.
  destruct (_ <=? _); discriminate.
Qed.

(** The conversion of an unsigned integer is never the negative zero. *)
Lemma of_uint63_not_neg_zero (n : PrimInt63.int) :
  Prim2SF (of_uint63 n) <> S754_zero true.
Proof.
  rewrite of_uint63_spec. unfold SpecFloat.binary_normalize.
  pose proof (Uint63.to_Z_bounded n) as Hb.
  destruct (Uint63.to_Z n) as [|p|p];
    [discriminate | apply binary_round_sign | lia].
Qed.

Lemma add_zero_of_uint63 (n : PrimInt63.int) :
  (0 + of_uint63 n)%float = of_uint63 n.
Proof.
  apply Prim2SF_inj. rewrite FloatAxioms.add_spec.
  pose proof (of_uint63_not_neg_zero n) as Hn.
  change (Prim2SF 0) with (S754_zero false).
  destruct (Prim2SF (of_uint63 n)) as [[|]| | |]; try reflexivity.
  congruence.
Qed.

(** X13.  For two timestamps of the same second, the second one not
    earlier in microseconds, [getTimeTaken] is the difference of the
    microseconds, converted to double, times [1e-6]: a single rounded
    multiplication. *)
Theorem getTimeTaken_same_second (start_time end_time : timeval) :
  tv_sec end_time = tv_sec start_time ->
  tv_usec start_time <= tv_usec end_time ->
  getTimeTaken start_time end_time
  = (of_uint63 (Uint63.of_Z (tv_usec end_time - tv_usec start_time))
     * micro)%float.
Proof.
  intros Hs Hu. unfold getTimeTaken. rewrite Hs, Z.sub_diag.
  change (double_of_long 0 * 1000000)%float with 0%float.
  unfold double_of_long. rewrite bool_decide_eq_true_2 by lia.
  by rewrite add_zero_of_uint63.
Qed.

Lemma getTimeTaken_same_second_witness :
  getTimeTaken (mkTimeval 10 5) (mkTimeval 10 250)
  = (of_uint63 (Uint63.of_Z (250 - 5)) * micro)%float.
Proof.
  apply (getTimeTaken_same_second (mkTimeval 10 5) (mkTimeval 10 250)).
  - reflexivity.
  - simpl. lia.
Defined.

(** ** Memory safety with room in the scratch buffers *)

Section Safety.

Variables matrix_size thread_count : Z.
Variable decimal_value : float.

Hypothesis size_pos : 0 < matrix_size.

Lemma not_edge_Ok (k : Z) : exists inner, not_edge matrix_size k = Ok inner.
Proof.
  unfold not_edge, c_rem. rewrite bool_decide_eq_false_2 by lia.
  cbn [mbind result_bind]. eauto.
Qed.

Lemma getSuroundingAverage_Ok (m : matrix_t) (k : Z) :
  length m = Z.to_nat (matrix_size * matrix_size) ->
  matrix_size <= k <= matrix_size * matrix_size - matrix_size - 1 ->
  exists v, getSuroundingAverage matrix_size m k = Ok v.
Proof.
  intros Hlen Hk. unfold getSuroundingAverage.
  destruct (load_in_range m (k - matrix_size)) as [t ->]; [nia|].
  destruct (load_in_range m (k + 1)) as [r ->]; [nia|].
  destruct (load_in_range m (k + matrix_size)) as [bo ->]; [nia|].
  destruct (load_in_range m (k - 1)) as [l ->]; [nia|].
  cbn [mbind result_bind]. eauto.
Qed.

Lemma store_in_range {A} (a : list A) (i : Z) (v : A) :
  0 <= i < Z.of_nat (length a) -> exists a', store a i v = Ok a'.
Proof. intros H. unfold store. rewrite bool_decide_eq_true_2 by done. eauto. Qed.

Lemma processBlock_body_total (m : matrix_t) (start k : Z)
    (nv : list float) (f : Z) :
  length m = Z.to_nat (matrix_size * matrix_size) ->
  matrix_size <= k <= matrix_size * matrix_size - matrix_size - 1 ->
  0 <= k - start < Z.of_nat (length nv) ->
  exists s, processBlock_body matrix_size decimal_value m start k (nv, f)
            = Ok s
    /\ length s.1 = length nv.
Proof.
  intros Hlen Hk Hslot. unfold processBlock_body.
  destruct (not_edge_Ok k) as [inner ->]. cbn [mbind result_bind].
  destruct inner.
  - destruct (getSuroundingAverage_Ok m k Hlen Hk) as [v ->].
    cbn [mbind result_bind].
    destruct (load_in_range nv (k - start) Hslot) as [o ->].
    cbn [mbind result_bind].
    destruct (store_in_range nv (k - start) v Hslot) as [nv' Hst].
    rewrite Hst. cbn [mbind result_bind]. eexists. split; [done|].
    simpl. by apply store_length in Hst.
  - destruct (load_in_range m k) as [v ->]; [nia|].
    cbn [mbind result_bind].
    destruct (store_in_range nv (k - start) v Hslot) as [nv' Hst].
    rewrite Hst. cbn [mbind result_bind]. eexists. split; [done|].
    simpl. by apply store_length in Hst.
Qed.

Lemma processBlock_total (m : matrix_t) (f : Z) (b : BLOCK) :
  length m = Z.to_nat (matrix_size * matrix_size) ->
  block_fits matrix_size b ->
  exists b' f', processBlock matrix_size decimal_value m f b = Ok (b', f')
    /\ block_fits matrix_size b'.
Proof.
  intros Hlen (Hs & He & Hroom).
  assert (exists s,
    for_range (start_index b) (end_index b + 1)
      (processBlock_body matrix_size decimal_value m (start_index b))
      (new_values b, f) = Ok s) as [[nv' f'] Hloop].
  { destruct (decide (start_index b <= end_index b + 1)) as [Hle|Hgt].
    - destruct (for_range_total
        (fun _ (s : scratch_t) => length s.1 = length (new_values b))
        (processBlock_body matrix_size decimal_value m (start_index b))
        (start_index b) (end_index b + 1) (new_values b, f) Hle eq_refl)
        as (s & Hrun & _); [|eauto].
      intros k [nv1 f1] Hk Hlen1. simpl in Hlen1. rewrite <- Hlen1.
      apply processBlock_body_total; [done | lia | lia].
    - rewrite for_range_empty by lia. eauto. }
  assert (processBlock matrix_size decimal_value m f b
          = Ok (mkBLOCK (start_index b) (end_index b) nv', f')) as Hp.
  { unfold processBlock. by rewrite Hloop. }
  eexists _, _. split; [exact Hp|].
  apply processBlock_length in Hp. simpl in *.
  unfold block_fits. simpl. rewrite Hp. done.
Qed.

Lemma processBlocks_total (m : matrix_t) (bs : blocks_t) (f : Z) :
  length m = Z.to_nat (matrix_size * matrix_size) ->
  (forall i, 0 <= i < thread_count ->
     exists b, load bs i = Ok (Some b) /\ block_fits matrix_size b) ->
  exists bs' f',
    processBlocks matrix_size thread_count decimal_value m (bs, f)
      = Ok (bs', f')
    /\ forall i, 0 <= i < thread_count ->
         exists b, load bs' i = Ok (Some b) /\ block_fits matrix_size b.
Proof.
  intros Hlen Hfits. unfold processBlocks.
  destruct (decide (0 <= thread_count)) as [Hle|Hgt].
  2: { rewrite for_range_empty by lia. eauto. }
  destruct (for_range_total
    (fun _ (s : blocks_t * Z) =>
       forall i, 0 <= i < thread_count ->
         exists b, load s.1 i = Ok (Some b) /\ block_fits matrix_size b)
    (fun i '(blocks, value_change_flag) =>
       block ← get_block blocks i;
       '(block, value_change_flag) ←
         processBlock matrix_size decimal_value m value_change_flag block;
       blocks ← store blocks i (Some block);
       Ok (blocks, value_change_flag))
    0 thread_count (bs, f) Hle Hfits) as ([bs' f'] & Hrun & Hfits').
  - intros j [bs1 f1] Hj Hinv. simpl in Hinv.
    destruct (Hinv j Hj) as (b & Hb & Hfit).
    rewrite (proj2 (get_block_Ok _ _ _) Hb). cbn [mbind result_bind].
    destruct (processBlock_total m f1 b Hlen Hfit) as (b' & f2 & -> & Hfit').
    cbn [mbind result_bind].
    destruct (store_in_range bs1 j (Some b')) as [bs2 Hst];
      [by apply load_Ok_range in Hb|].
    rewrite Hst. cbn [mbind result_bind]. eexists. split; [done|].
    simpl. intros i Hi. destruct (decide (i = j)) as [->|Hne].
    + exists b'. split; [by apply load_store_eq with bs1 | done].
    + rewrite (load_store_ne _ _ _ _ _ Hst) by lia. by apply Hinv.
  - eauto.
Qed.

Lemma updateMatrix_total (m : matrix_t) (bs : blocks_t) :
  length m = Z.to_nat (matrix_size * matrix_size) ->
  (forall i, 0 <= i < thread_count ->
     exists b, load bs i = Ok (Some b) /\ block_fits matrix_size b) ->
  exists m', updateMatrix matrix_size thread_count bs m = Ok m'
    /\ length m' = length m.
Proof.
  intros Hlen Hfits. unfold updateMatrix.
  destruct (decide (0 <= thread_count)) as [Hle|Hgt].
  2: { rewrite for_range_empty by lia. eauto. }
  apply (for_range_total (fun _ m1 => length m1 = length m)); [done|done|].
  intros j m1 Hj Hlen1.
  destruct (Hfits j Hj) as (b & Hb & Hs & He & Hroom).
  rewrite (proj2 (get_block_Ok _ _ _) Hb). cbn [mbind result_bind].
  destruct (decide (start_index b <= end_index b + 1)) as [Hle'|Hgt'].
  2: { rewrite for_range_empty by lia. eauto. }
  apply (for_range_total (fun _ m2 => length m2 = length m)); [done|done|].
  intros k m2 Hk Hlen2. unfold updateMatrix_body.
  destruct (not_edge_Ok k) as [inner ->]. cbn [mbind result_bind].
  destruct inner; [|eauto].
  destruct (load_in_range (new_values b) (k - start_index b)) as [v ->];
    [lia|].
  cbn [mbind result_bind].
  destruct (store_in_range m2 k v) as [m3 Hst]; [nia|].
  exists m3. split; [done|]. apply store_length in Hst. congruence.
Qed.

Lemma cycle_total (st : state) :
  state_fits matrix_size thread_count st ->
  exists e, cycle matrix_size thread_count decimal_value st = Ok e
    /\ forall st', e = Break st' \/ e = Continue st' ->
         state_fits matrix_size thread_count st'.
Proof.
  intros (_ & Hlen & Hfits). unfold cycle.
  destruct (processBlocks_total (matrix st) (blocks st)
              (value_change_flag st) Hlen Hfits) as (bs & f & -> & Hfits').
  cbn [mbind result_bind]. case_bool_decide as Hf.
  - eexists. split; [done|]. intros st' [[= <-] | [=]]. done.
  - destruct (updateMatrix_total (matrix st) bs Hlen Hfits')
      as (m' & -> & Hlen').
    cbn [mbind result_bind]. eexists. split; [done|].
    intros st' [[=] | [= <-]]. split; [done|]. simpl.
    split; [congruence | done].
Qed.

Lemma relaxation_loop_total (fuel n : nat) (st : state) :
  state_fits matrix_size thread_count st ->
  exists r, relaxation_loop fuel matrix_size thread_count decimal_value n st
            = Ok r.
Proof.
  revert n st. induction fuel as [|fuel IH]; intros n st Hfits; simpl.
  - eauto.
  - destruct (cycle_total st Hfits) as (e & -> & Hnext).
    cbn [mbind result_bind]. destruct e as [st'|st']; [eauto|].
    apply IH. apply Hnext. by right.
Qed.

End Safety.

(** X14.  Memory safety with room.  From a state in which the grid has
    [size * size] cells and every entry of the [blocks] array is assigned
    a block whose range lies between the first and the last row and
    whose scratch buffer has a slot for every index of the range, the
    loop performs no access out of bounds and no division by zero: for
    every number of cycles it is run, it has not faulted. *)
Theorem relaxation_loop_safe (fuel : nat) (matrix_size thread_count : Z)
    (decimal_value : float) (n : nat) (st : state) :
  state_fits matrix_size thread_count st ->
  exists r, relaxation_loop fuel matrix_size thread_count decimal_value n st
            = Ok r.
Proof.
  intros Hfits. apply relaxation_loop_total; [apply Hfits | done].
Qed.

Lemma relaxation_loop_safe_witness :
  exists r, relaxation_loop 5 3 1 precision2 0 roomy_state3 = Ok r.
Proof.
  apply (relaxation_loop_safe 5 3 1 precision2 0 roomy_state3).
  split; [lia|]. split; [reflexivity|].
  intros i Hi. assert (i = 0) as -> by lia.
  exists (mkBLOCK 3 5 [0%float; 0%float; 0%float]).
  split; [reflexivity|]. unfold block_fits. simpl. lia.
Defined.

(** ** The columns the relaxation leaves alone *)

Lemma on_edge_column (size k : Z) :
  Z.rem k size = 0 \/ Z.rem (k + 1) size = 0 ->
  not_edge size k <> Ok true.
Proof. intros Hk (_ & H1 & H2)%not_edge_true. lia. Qed.

Lemma updateMatrix_edge_column (size tc : Z) (bs : blocks_t)
    (m m' : matrix_t) (k : Z) :
  updateMatrix size tc bs m = Ok m' ->
  not_edge size k <> Ok true -> load m' k = load m k.
Proof.
  intros Hrun Hk. unfold updateMatrix in Hrun.
  destruct (decide (0 <= tc)) as [Hle|Hgt].
  2: { rewrite for_range_empty in Hrun by lia. by injection Hrun as <-. }
  apply (for_range_partial (fun _ m1 => load m1 k = load m k)
           _ _ _ _ _ Hle Hrun); [done|].
  intros j m1 m2 Hj IH Hstep. rewrite <- IH.
  apply bind_Ok in Hstep as (b & _ & Hloop).
  destruct (decide (start_index b <= end_index b + 1)) as [Hle'|Hgt'].
  2: { rewrite for_range_empty in Hloop by lia. by injection Hloop as <-. }
  apply (for_range_partial (fun _ m3 => load m3 k = load m1 k)
           _ _ _ _ _ Hle' Hloop); [done|].
  intros m_i m3 m4 Hm_i IH' Hbody. rewrite <- IH'.
  unfold updateMatrix_body in Hbody.
  apply bind_Ok in Hbody as (inner & Hinner & Hbody).
  destruct inner; [|by injection Hbody as <-].
  apply bind_Ok in Hbody as (v & _ & Hst).
  apply (load_store_ne _ _ _ _ _ Hst). intros ->. done.
Qed.

Lemma cycles_edge_column (size tc : Z) (dv : float) (st st' : state)
    (k : Z) :
  rtc (cycle_step size tc dv) st st' ->
  not_edge size k <> Ok true ->
  load (matrix st') k = load (matrix st) k.
Proof.
  intros Hsteps Hk. induction Hsteps as [|st st1 st2 Hstep _ IH]; [done|].
  rewrite IH.
  assert (exists e, cycle size tc dv st = Ok e
                    /\ (e = Continue st1 \/ e = Break st1))
    as (e & He & Hcase) by (destruct Hstep; eauto).
  apply cycle_Ok in He as (bs & f & _ & [(_ & ->) | (_ & m & Hu & ->)]).
  - by destruct Hcase as [[=] | [= <-]].
  - destruct Hcase as [[= <-] | [=]]. simpl.
    by apply (updateMatrix_edge_column size tc bs).
Qed.

(** X15.  The left and right columns are never written.  Whatever the
    blocks are, a cell whose index is a multiple of the size, or whose
    index plus one is, holds in the state in which the loop is left what
    it held when the loop was entered: the right column keeps its initial
    0.0 like the left column keeps its 1.0. *)
Theorem edge_columns_never_written (fuel : nat)
    (matrix_size thread_count : Z) (decimal_value : float) (n n' : nat)
    (st st' : state) (k : Z) :
  relaxation_loop fuel matrix_size thread_count decimal_value n st
    = Ok (Some (n', st')) ->
  Z.rem k matrix_size = 0 \/ Z.rem (k + 1) matrix_size = 0 ->
  load (matrix st') k = load (matrix st) k.
Proof.
  intros Hloop Hk. apply relaxation_loop_cycles in Hloop.
  apply (cycles_edge_column _ _ _ _ _ _ Hloop). by apply on_edge_column.
Qed.

Lemma edge_columns_never_written_witness :
  load (matrix committed_state3) 5 = load (matrix roomy_state3) 5.
Proof.
  apply (edge_columns_never_written 2 3 1 precision2 0 2 roomy_state3
           committed_state3 5).
  - vm_compute. reflexivity.
  - right. reflexivity.
Defined.

(** ** The boundary through the run *)

Lemma updateMatrix_frame_entries (size tc : Z) (bs : blocks_t) (i j : Z)
    (m m' : matrix_t) :
  (forall q b, 0 <= q < tc -> load bs q = Ok (Some b) ->
     size <= start_index b) ->
  updateMatrix size tc bs m = Ok m' ->
  on_boundary size i j ->
  load m' (i * size + j) = load m (i * size + j).
Proof.
  intros Hbs Hrun Hij. unfold updateMatrix in Hrun.
  destruct (decide (0 <= tc)) as [Hle|Hgt].
  2: { rewrite for_range_empty in Hrun by lia. by injection Hrun as <-. }
  apply (for_range_partial
    (fun _ m1 => load m1 (i * size + j) = load m (i * size + j))
    _ _ _ _ _ Hle Hrun); [done|].
  intros q m1 m2 Hq IH Hbody. rewrite <- IH.
  apply bind_Ok in Hbody as (b & Hb & Hbody).
  apply (updateMatrix_block_frame size b); [|done|done].
  apply get_block_Ok in Hb. by apply (Hbs q).
Qed.

(** With room, a cycle keeps the room and the boundary. *)
Lemma cycle_step_fits (size tc : Z) (dv : float) (st st' : state) :
  state_fits size tc st -> boundary_fixed size (matrix st) ->
  cycle_step size tc dv st st' ->
  state_fits size tc st' /\ boundary_fixed size (matrix st').
Proof.
  intros Hfits Hm Hstep.
  destruct (cycle_total size tc dv ltac:(apply Hfits) st Hfits)
    as (e & He & Hnext).
  assert (e = Continue st' \/ e = Break st') as Hcase.
  { destruct Hstep as [H|H]; rewrite H in He; injection He as <-; auto. }
  assert (state_fits size tc st') as Hfits'.
  { apply Hnext. destruct Hcase; auto. }
  split; [done|].
  apply cycle_Ok in He as (bs & f & _ & [(_ & ->) | (_ & m & Hu & ->)]).
  - destruct Hcase as [[=] | [= <-]]. done.
  - destruct Hcase as [[= <-] | [=]]. simpl in *.
    intros i j Hi Hj Hedge.
    rewrite (updateMatrix_frame_entries size tc bs i j (matrix st) m);
      [by apply Hm | | done | done].
    intros q b Hq Hb. destruct Hfits' as (_ & _ & Hentries). simpl in *.
    destruct (Hentries q Hq) as (b0 & Hb0 & Hs & _).
    assert (b0 = b) as -> by congruence. done.
Qed.

Lemma cycles_fits (size tc : Z) (dv : float) (st st' : state) :
  rtc (cycle_step size tc dv) st st' ->
  state_fits size tc st -> boundary_fixed size (matrix st) ->
  state_fits size tc st' /\ boundary_fixed size (matrix st').
Proof.
  induction 1 as [|st st1 st2 Hstep _ IH]; [done|].
  intros Hfits Hm.
  destruct (cycle_step_fits _ _ _ _ _ Hfits Hm Hstep) as [Hfits1 Hm1].
  by apply IH.
Qed.

(** C5.  Boundary invariance.
    - Creation: for every size [makeMatrix] returns a grid, and the grid
      has 1.0 in every cell of row 0 and of column 0.
    - Entry of the loop: whenever the number of mutable indexes is not 0,
      [main] reaches its loop with such a grid and, for its one thread,
      a block that starts after the first row.
    - Relaxation: a cycle that leaves the loop leaves the grid as it was.
    - Commit: on blocks that start after the first row, [updateMatrix]
      leaves every boundary cell as it was.
    - Every point of a run: from a state with 1.0 on the boundary and
      blocks that start after the first row, every state reached by
      cycles has 1.0 on the boundary.
    - With room in the scratch buffers the run exists: from a state that
      fits the grid and has 1.0 on the boundary, every state reached by
      cycles has 1.0 on the boundary and has a next cycle, and for every
      number of cycles the loop has not faulted and, when it is left, the
      final grid has 1.0 on the boundary. *)
Theorem boundary_invariance (matrix_size thread_count : Z)
    (decimal_value : float) :
  (forall junk, exists m,
     makeMatrix junk matrix_size = Ok m /\ boundary_fixed matrix_size m)
  /\ (matrix_size * matrix_size - matrix_size * 2 <> 0 ->
      forall junk_matrix junk_blocks, exists m bs,
        makeMatrix junk_matrix matrix_size = Ok m
        /\ makeBlocks junk_blocks matrix_size 1 = Ok bs
        /\ boundary_fixed matrix_size m
        /\ blocks_in_interior matrix_size bs)
  /\ (forall st st',
        cycle matrix_size thread_count decimal_value st = Ok (Break st') ->
        matrix st' = matrix st)
  /\ (forall bs m m' i j,
        blocks_in_interior matrix_size bs ->
        updateMatrix matrix_size thread_count bs m = Ok m' ->
        on_boundary matrix_size i j ->
        load m' (i * matrix_size + j) = load m (i * matrix_size + j))
  /\ (forall st st',
        boundary_fixed matrix_size (matrix st) ->
        blocks_in_interior matrix_size (blocks st) ->
        rtc (cycle_step matrix_size thread_count decimal_value) st st' ->
        boundary_fixed matrix_size (matrix st'))
  /\ (forall st,
        boundary_fixed matrix_size (matrix st) ->
        state_fits matrix_size thread_count st ->
        (forall st',
           rtc (cycle_step matrix_size thread_count decimal_value) st st' ->
           boundary_fixed matrix_size (matrix st')
           /\ exists e,
                cycle matrix_size thread_count decimal_value st' = Ok e)
        /\ forall fuel n, exists r,
             relaxation_loop fuel matrix_size thread_count decimal_value n st
               = Ok r
             /\ forall n' st', r = Some (n', st') ->
                  boundary_fixed matrix_size (matrix st')).
Proof.
  assert (forall junk, exists m,
            makeMatrix junk matrix_size = Ok m
            /\ boundary_fixed matrix_size m) as Hcreate.
  { intros junk.
    assert (exists m, makeMatrix junk matrix_size = Ok m) as [m Hm].
    { destruct (decide (0 <= matrix_size)) as [Hpos|Hneg].
      - destruct (makeMatrix_spec junk matrix_size Hpos) as (m & Hm & _).
        eauto.
      - rewrite makeMatrix_negative by lia. eauto. }
    exists m. split; [done|]. by apply makeMatrix_boundary with junk. }
  split; [done|]. split; [|split; [|split; [|split]]].
  - intros HM junk_matrix junk_blocks.
    destruct (Hcreate junk_matrix) as (m & Hm & Hb).
    exists m, [Some (equal_block junk_blocks matrix_size
                       (matrix_size * matrix_size - matrix_size * 2) 0)].
    split; [done|]. split.
    { rewrite makeBlocks_single_thread.
      by rewrite bool_decide_eq_false_2 by done. }
    split; [done|].
    apply Forall_cons. split; [|by apply Forall_nil].
    intros b [= <-]. simpl. lia.
  - intros st st' H.
    by apply cycle_Ok in H as (bs & f & _ & [(_ & [= ->]) | (_ & m & _ & [=])]).
  - intros bs m m' i j. apply updateMatrix_frame.
  - intros st st' Hm Hbs Hsteps.
    by apply (cycles_invariant _ _ _ _ _ Hsteps).
  - intros st Hm Hfits. split.
    + intros st' Hsteps.
      destruct (cycles_fits _ _ _ _ _ Hsteps Hfits Hm) as [Hfits' Hm'].
      split; [done|].
      destruct (cycle_total matrix_size thread_count decimal_value
                  ltac:(apply Hfits) st' Hfits') as (e & He & _).
      eauto.
    + intros fuel n.
      destruct (relaxation_loop_total matrix_size thread_count decimal_value
                  ltac:(apply Hfits) fuel n st Hfits) as [r Hr].
      exists r. split; [done|]. intros n' st' ->.
      apply relaxation_loop_cycles in Hr.
      by destruct (cycles_fits _ _ _ _ _ Hr Hfits Hm).
Qed.

Lemma boundary_invariance_witness :
  exists r, relaxation_loop 2 3 1 precision2 0 roomy_state3 = Ok r
    /\ forall n' st', r = Some (n', st') -> boundary_fixed 3 (matrix st').
Proof.
  apply (proj2 (proj2 (proj2 (proj2 (proj2
           (boundary_invariance 3 1 precision2))))) roomy_state3).
  - apply (makeMatrix_boundary (fun _ => 0%float)). reflexivity.
  - split; [lia|]. split; [reflexivity|].
    intros i Hi. assert (i = 0) as -> by lia.
    exists (mkBLOCK 3 5 [0%float; 0%float; 0%float]).
    split; [reflexivity|]. unfold block_fits. simpl. lia.
Defined.

(** ** The change test of a whole block *)

(** X3.  The change test.  On a grid of [size * size] cells and a block
    that fits it, [processBlock] returns, and the flag it returns is 1
    when the average of the neighbours minus the previous content of the
    slot exceeds the threshold at some index of the block that is not on
    the left or right column, and the flag it was given when no such
    index exists: the difference is signed, a decrease raises nothing. *)
Theorem processBlock_change_test (size : Z) (dv : float) (m : matrix_t)
    (f : Z) (b : BLOCK) :
  0 < size ->
  length m = Z.to_nat (size * size) ->
  block_fits size b ->
  exists b' f',
    processBlock size dv m f b = Ok (b', f')
    /\ ((f' = f
         /\ forall k, in_block b k -> not_edge size k = Ok true ->
              change_at size dv m b k = Ok false)
        \/ (f' = 1
            /\ exists k, in_block b k /\ not_edge size k = Ok true
                 /\ change_at size dv m b k = Ok true)).
Proof.
  intros Hsize Hlen Hfits.
  destruct (processBlock_total size dv Hsize m f b Hlen Hfits)
    as (b' & f' & Hp & _).
  exists b', f'. split; [done|]. by apply processBlock_flag with b'.
Qed.

Lemma processBlock_change_test_witness :
  exists b' f',
    processBlock 3 precision2 grid3 0
      (mkBLOCK 3 5 [1%float; 1%float; 1%float]) = Ok (b', f')
    /\ ((f' = 0
         /\ forall k, in_block (mkBLOCK 3 5 [1%float; 1%float; 1%float]) k ->
              not_edge 3 k = Ok true ->
              change_at 3 precision2 grid3
                (mkBLOCK 3 5 [1%float; 1%float; 1%float]) k = Ok false)
        \/ (f' = 1
            /\ exists k, in_block (mkBLOCK 3 5 [1%float; 1%float; 1%float]) k
                 /\ not_edge 3 k = Ok true
                 /\ change_at 3 precision2 grid3
                      (mkBLOCK 3 5 [1%float; 1%float; 1%float]) k = Ok true)).
Proof.
  apply (processBlock_change_test 3 precision2 grid3 0
           (mkBLOCK 3 5 [1%float; 1%float; 1%float])).
  - lia.
  - reflexivity.
  - unfold block_fits. simpl. lia.
Defined.
